(** * go-clean-app: graceful-shutdown orchestrator and engine constructor

  A shallow embedding of [lifecycle/lifecycle.go], [application/option.go]
  and the engine constructor [application.New], together with an
  interleaving semantics of the goroutines these packages start:

  - [lifecycle]: the hook registry ([Gracefull], [Register], [Done]);
  - [application]: the engine record, the functional options and [New];
  - [goroutines]: one labelled step function for the signal listener,
    the shutdown goroutine ([gracefullAll]), the hook goroutines
    ([gracefullOne]) and the receivers blocked on [Done()];
  - [producers]: goroutines that call [Register] at the same time. *)

From stdpp Require Import base decidable option list gmap strings fin_maps.
From Stdlib Require Import ZArith Lia.

#[local] Set Warnings "-clear-no-such-hyp".
Local Open Scope string_scope.

(** Go's [error] interface value: [None] is [nil], [Some msg] an error whose
  [Error()] text is [msg]. *)
Definition error : Type := option string.

(* ===================================================================== *)
(** ** Package lifecycle *)
(* ===================================================================== *)
Module lifecycle.

(** What a registered [func() error] does when it is called.  How long it
    takes is left to the scheduler of [goroutines]; [Blocks] is a callback
    that never returns. *)
Inductive HookBehaviour : Type :=
| Succeeds
| Fails (err : string)
| Blocks.

(** A function value; [hook_id] tells two closures with the same
    behaviour apart. *)
Record Hook : Type := mkHook {
  hook_id : nat;
  hook_run : HookBehaviour
}.

#[global] Instance HookBehaviour_eq_dec : EqDecision HookBehaviour.
Proof. solve_decision. Defined.
#[global] Instance Hook_eq_dec : EqDecision Hook.
Proof. solve_decision. Defined.

(** The state of an unbuffered [chan struct{}]: whether [close] was called
    on it and how many sends have been handed to a receiver. *)
Record Chan : Type := mkChan {
  chan_closed : bool;
  chan_delivered : nat
}.

(** [make(chan struct{})] *)
Definition make_chan : Chan := mkChan false 0.

(** [type Gracefull struct { functions map[string]func() error; done chan struct{} }] *)
Record Gracefull : Type := mkGracefull {
  functions : gmap string Hook;
  done : Chan
}.

(** The record built by [NewGracefullShutdown]; the goroutine it starts is
    [goroutines.O_AwaitCtx]. *)
Definition NewGracefullShutdown : Gracefull :=
  mkGracefull ∅ make_chan.

(** [func (g *Gracefull) Done() <-chan struct{}] *)
Definition Done (g : Gracefull) : Chan := done g.

(** [func (g *Gracefull) Register(name string, gracefull func() error) error]:
    the receiver after the call and the returned error. *)
Definition Register (g : Gracefull) (name : string) (gracefull : Hook)
  : Gracefull * error :=
  match functions g !! name with
  | Some _ => (g, None) (* Already registered *)
  | None => (mkGracefull (<[name := gracefull]> (functions g)) (done g), None)
  end.

(** A sequence of [Register] calls made one after the other. *)
Fixpoint RegisterAll (g : Gracefull) (calls : list (string * Hook)) : Gracefull :=
  match calls with
  | [] => g
  | (name, h) :: rest => RegisterAll (fst (Register g name h)) rest
  end.

(** The callback of the first call of a sequence that names [name]. *)
Fixpoint first_registered (name : string) (calls : list (string * Hook)) : option Hook :=
  match calls with
  | [] => None
  | (n, h) :: rest => if decide (n = name) then Some h else first_registered name rest
  end.

End lifecycle.

(* ===================================================================== *)
(** ** Package application *)
(* ===================================================================== *)
Module application.

(** A call either returns a value or panics. *)
Inductive Outcome (A : Type) : Type :=
| Returned (a : A)
| Panicked (msg : string).
Arguments Returned {A} a.
Arguments Panicked {A} msg.

(** The values attached to a [context.Context] by [context.WithValue],
    most recent first.  Whether the context is cancelled is part of the
    state of [goroutines]. *)
Definition Context : Type := list (string * bool).

(** [context.Background()] under [context.WithCancel] carries no value. *)
Definition Background : Context := [].

(** [context.WithValue(parent, key, val)] *)
Definition WithValue (parent : Context) (key : string) (val : bool) : Context :=
  (key, val) :: parent.

(** [ctx.Value(key)]: the innermost binding of [key]. *)
Fixpoint Value (ctx : Context) (key : string) : option bool :=
  match ctx with
  | [] => None
  | (k, v) :: parent => if decide (k = key) then Some v else Value parent key
  end.

(** A [logger.Logger]; only its identity matters here. *)
Record Logger : Type := mkLogger { logger_name : string }.

(** [type Engine struct] *)
Record Engine : Type := mkEngine {
  appName : string;
  appVersion : string;
  appEnv : string;
  appDebug : bool;
  ctx : Context;
  gracefull : lifecycle.Gracefull;
  logger : option Logger
}.

(** [type Option func(e *Engine)]: the engine after the call, unless the
    option panics. *)
Definition Option : Type := Engine → Outcome Engine.

Definition Name (e : Engine) : string := appName e.
Definition Engine_Version (e : Engine) : string := appVersion e.
Definition Engine_Env (e : Engine) : string := appEnv e.
Definition Engine_Debug (e : Engine) : bool := appDebug e.
Definition CLIMode (e : Engine) : bool :=
  bool_decide (Value (ctx e) "cli_mode" = Some true).

Definition SetLogger (e : Engine) (l : Logger) : Engine :=
  mkEngine (appName e) (appVersion e) (appEnv e) (appDebug e) (ctx e)
           (gracefull e) (Some l).

Definition SetGracefull (e : Engine) (g : lifecycle.Gracefull) : Engine :=
  mkEngine (appName e) (appVersion e) (appEnv e) (appDebug e) (ctx e)
           g (logger e).

(** [option.go] *)
Definition WithCLIMode : Option := λ e,
  Returned (mkEngine (appName e) (appVersion e) (appEnv e) (appDebug e)
                     (WithValue (ctx e) "cli_mode" true)
                     (gracefull e) (logger e)).

Definition Version (version : string) : Option := λ e,
  Returned (mkEngine (appName e) version (appEnv e) (appDebug e) (ctx e)
                     (gracefull e) (logger e)).

Definition AppName (name : string) : Option := λ e,
  Returned (mkEngine name (appVersion e) (appEnv e) (appDebug e) (ctx e)
                     (gracefull e) (logger e)).

Definition Debug (debug : bool) : Option := λ e,
  Returned (mkEngine (appName e) (appVersion e) (appEnv e) debug (ctx e)
                     (gracefull e) (logger e)).

Definition Env (env : string) : Option := λ e,
  Returned (mkEngine (appName e) (appVersion e) env (appDebug e) (ctx e)
                     (gracefull e) (logger e)).

(** [zaplogger.SetZapLogger], over the replaceable constructor
    [NewZapLogger] (a package variable): it is given the engine's name,
    version, environment and debug flag and returns a logger, its close
    function and an error. *)
Definition SetZapLogger
    (NewZapLogger : string → string → string → bool →
                    Logger * lifecycle.Hook * error) : Option := λ e,
  match NewZapLogger (Name e) (Engine_Version e) (Engine_Env e) (Engine_Debug e) with
  | (_, _, Some err) => Panicked ("failed to create zap logger: " ++ err)
  | (l, closeLogger, None) =>
      let e := SetLogger e l in
      match lifecycle.Register (gracefull e) "zaplogger" closeLogger with
      | (_, Some err) =>
          Panicked ("failed to register zap logger for graceful shutdown: " ++ err)
      | (g, None) => Returned (SetGracefull e g)
      end
  end.

(** An option function that returns, whatever engine it is given. *)
Definition never_panics (o : Option) : Prop := ∀ e, ∃ e', o e = Returned e'.

(** [for _, option := range options { option(engine) }] *)
Fixpoint apply_options (options : list Option) (engine : Engine) : Outcome Engine :=
  match options with
  | [] => Returned engine
  | option :: rest =>
      match option engine with
      | Returned engine' => apply_options rest engine'
      | Panicked msg => Panicked msg
      end
  end.

(** The three [if engine.appX == ""] blocks at the end of [New]. *)
Definition apply_defaults (engine : Engine) : Engine :=
  let engine :=
    if decide (appName engine = "")
    then mkEngine "application" (appVersion engine) (appEnv engine)
                  (appDebug engine) (ctx engine) (gracefull engine) (logger engine)
    else engine in
  let engine :=
    if decide (appVersion engine = "")
    then mkEngine (appName engine) "0.1.0" (appEnv engine)
                  (appDebug engine) (ctx engine) (gracefull engine) (logger engine)
    else engine in
  if decide (appEnv engine = "")
  then mkEngine (appName engine) (appVersion engine) "development"
                (appDebug engine) (ctx engine) (gracefull engine) (logger engine)
  else engine.

(** [&Engine{ctx: ctx, gracefull: lifecycle.NewGracefullShutdown(ctx)}]:
    every other field holds its zero value. *)
Definition new_engine : Engine :=
  mkEngine "" "" "" false Background lifecycle.NewGracefullShutdown None.

(** [func New(options ...Option)], returning [*Engine] and [error]: the pointer ([None] is
    [nil]) and the error it returns.  The goroutines it starts run in
    [goroutines.after_New]. *)
Definition New (options : list Option) : Outcome (option Engine * error) :=
  match apply_options options new_engine with
  | Panicked msg => Panicked msg
  | Returned engine => Returned (Some (apply_defaults engine), None)
  end.

(** The remaining accessors and setters of [Engine]. *)
Definition Engine_Context (e : Engine) : Context := ctx e.
Definition Engine_Gracefull (e : Engine) : lifecycle.Gracefull := gracefull e.
Definition Engine_Logger (e : Engine) : option Logger := logger e.
Definition CurrentUser (e : Engine) : string := "default-user".
Definition UserAgent (e : Engine) : string := "default-user-agent".

Definition SetContext (e : Engine) (c : Context) : Engine :=
  mkEngine (appName e) (appVersion e) (appEnv e) (appDebug e) c
           (gracefull e) (logger e).

(** A [*zap.Logger]. *)
Record ZapLogger : Type := mkZapLogger { zap_id : nat }.

(** [zaplogger.SetZapLoggerForCLI] ([cli-logger.go]), over what
    [NewZapLoggerForCLI().Build(...)] returns and over
    [GetFromExternalLogger]; the error of the latter is discarded by the
    code ([logger, closeLogger, _ := ...]). *)
Definition SetZapLoggerForCLI
    (Build : ZapLogger * error)
    (GetFromExternalLogger : ZapLogger → Logger * lifecycle.Hook * error)
    : Option := λ e,
  match Build with
  | (_, Some err) => Panicked ("failed to create zap logger for CLI: " ++ err)
  | (l, None) =>
      match GetFromExternalLogger l with
      | (lg, closeLogger, _) =>
          let e := SetLogger e lg in
          match lifecycle.Register (gracefull e) "zaplogger-cli" closeLogger with
          | (_, Some err) =>
              Panicked ("failed to register zap logger for CLI graceful shutdown: "
                        ++ err)
          | (g, None) => Returned (SetGracefull e g)
          end
      end
  end.

(** The option constructors of [option.go], as data. *)
Inductive BuiltinOption : Type :=
| OptWithCLIMode
| OptVersion (version : string)
| OptAppName (name : string)
| OptDebug (debug : bool)
| OptEnv (env : string).

#[global] Instance BuiltinOption_eq_dec : EqDecision BuiltinOption.
Proof. solve_decision. Defined.

Definition option_of (b : BuiltinOption) : Option :=
  match b with
  | OptWithCLIMode => WithCLIMode
  | OptVersion version => Version version
  | OptAppName name => AppName name
  | OptDebug debug => Debug debug
  | OptEnv env => Env env
  end.

End application.

(* ===================================================================== *)
(** ** The goroutines started by [New] and [NewGracefullShutdown] *)
(* ===================================================================== *)
Module goroutines.
Import lifecycle.

(** Signals the operating system may deliver to the process. *)
Inductive Signal : Type := SIGINT | SIGTERM | SIGHUP.

(** [signal.Notify(c, os.Interrupt, syscall.SIGTERM)]: the signals relayed
    to [c]. *)
Definition notified (sig : Signal) : bool :=
  match sig with
  | SIGINT | SIGTERM => true
  | SIGHUP => false
  end.

(** [c := make(chan os.Signal, 1)] *)
Definition sigchan_cap : nat := 1.

(** Where the goroutine of [New] stands:
    blocked in [select]; about to call [signal.Stop(c)]; about to call
    [cancel()]; finished. *)
Inductive ListenerPC : Type := L_Select | L_Stop | L_Cancel | L_Exit.

(** Where the goroutine of [NewGracefullShutdown] stands: blocked on
    [<-ctx.Done()]; entering [gracefullAll]; inside the [range] loop with
    the entries still to visit; blocked in [wg.Wait()]; about to log the
    end; blocked on [g.done <- struct{}{}]; finished. *)
Inductive OrchPC : Type :=
| O_AwaitCtx
| O_Begin
| O_Range (todo : gmap string Hook)
| O_Wait
| O_LogOver
| O_Send
| O_Exit.

(** Where a [gracefullOne] goroutine stands: started; inside
    [gracefullFunc()]; back from it with its result; log line written
    (the deferred [wg.Done()] is next); finished. *)
Inductive WorkerPC : Type :=
| W_Spawned
| W_InHook
| W_Returned (err : error)
| W_Logged
| W_Exit.

Record Worker : Type := mkWorker {
  w_name : string;
  w_func : Hook;
  w_pc : WorkerPC
}.

(** A goroutine executing [<-g.Done()]. *)
Inductive WaiterPC : Type := R_Blocked | R_Released.

#[global] Instance ListenerPC_eq_dec : EqDecision ListenerPC.
Proof. solve_decision. Defined.
#[global] Instance OrchPC_eq_dec : EqDecision OrchPC.
Proof. solve_decision. Defined.
#[global] Instance WorkerPC_eq_dec : EqDecision WorkerPC.
Proof. solve_decision. Defined.
#[global] Instance Worker_eq_dec : EqDecision Worker.
Proof. solve_decision. Defined.
#[global] Instance WaiterPC_eq_dec : EqDecision WaiterPC.
Proof. solve_decision. Defined.

Record State : Type := mkState {
  cancelled : bool;               (* ctx.Done() is closed *)
  notify : bool;                  (* c is registered with package signal *)
  sigchan : list Signal;          (* the values buffered in c *)
  listener : ListenerPC;
  registry : gmap string Hook;    (* g.functions *)
  done_chan : Chan;               (* g.done *)
  orch : OrchPC;
  wg : Z;                         (* the WaitGroup counter *)
  workers : list Worker;
  log : list string;              (* lines written by package log *)
  waiters : list WaiterPC
}.

Definition set_cancelled (b : bool) (s : State) : State :=
  mkState b (notify s) (sigchan s) (listener s) (registry s) (done_chan s)
          (orch s) (wg s) (workers s) (log s) (waiters s).
Definition set_notify (b : bool) (s : State) : State :=
  mkState (cancelled s) b (sigchan s) (listener s) (registry s) (done_chan s)
          (orch s) (wg s) (workers s) (log s) (waiters s).
Definition set_sigchan (c : list Signal) (s : State) : State :=
  mkState (cancelled s) (notify s) c (listener s) (registry s) (done_chan s)
          (orch s) (wg s) (workers s) (log s) (waiters s).
Definition set_listener (pc : ListenerPC) (s : State) : State :=
  mkState (cancelled s) (notify s) (sigchan s) pc (registry s) (done_chan s)
          (orch s) (wg s) (workers s) (log s) (waiters s).
Definition set_done_chan (c : Chan) (s : State) : State :=
  mkState (cancelled s) (notify s) (sigchan s) (listener s) (registry s) c
          (orch s) (wg s) (workers s) (log s) (waiters s).
Definition set_orch (pc : OrchPC) (s : State) : State :=
  mkState (cancelled s) (notify s) (sigchan s) (listener s) (registry s)
          (done_chan s) pc (wg s) (workers s) (log s) (waiters s).
Definition set_wg (n : Z) (s : State) : State :=
  mkState (cancelled s) (notify s) (sigchan s) (listener s) (registry s)
          (done_chan s) (orch s) n (workers s) (log s) (waiters s).
Definition set_workers (ws : list Worker) (s : State) : State :=
  mkState (cancelled s) (notify s) (sigchan s) (listener s) (registry s)
          (done_chan s) (orch s) (wg s) ws (log s) (waiters s).
Definition println (line : string) (s : State) : State :=
  mkState (cancelled s) (notify s) (sigchan s) (listener s) (registry s)
          (done_chan s) (orch s) (wg s) (workers s) (log s ++ [line]) (waiters s).
Definition set_waiters (rs : list WaiterPC) (s : State) : State :=
  mkState (cancelled s) (notify s) (sigchan s) (listener s) (registry s)
          (done_chan s) (orch s) (wg s) (workers s) (log s) rs.

(** The two [log.Printf] lines of [gracefullOne]. *)
Definition hook_log_line (name : string) (err : error) : string :=
  match err with
  | Some e => "Error during gracefull shutdown of " ++ name ++ ": " ++ e
  | None => "Gracefull shutdown of " ++ name ++ " completed successfully"
  end.

(** One atomic action of one goroutine or of the environment. *)
Inductive Label : Type :=
| EnvSignal (sig : Signal)          (* the OS delivers [sig] to the process *)
| EnvCancel                         (* a holder of [cancel] calls it *)
| ListenerRecv                      (* [case <-c:] *)
| ListenerCtxDone                   (* [case <-ctx.Done():] *)
| ListenerStop                      (* [signal.Stop(c)] *)
| ListenerCancel                    (* [cancel()] *)
| OrchCtxDone                       (* [<-ctx.Done()] returns *)
| OrchLogStart                      (* first [log.Println], [wg] created *)
| OrchSpawn (name : string)         (* one loop iteration: [wg.Add(1); go ...] *)
| OrchRangeEnd                      (* the loop ends *)
| OrchWait                          (* [wg.Wait()] returns *)
| OrchLogOver                       (* second [log.Println] *)
| OrchSend (i : nat)                (* [g.done <- struct{}{}] meets receiver [i] *)
| RecvClosed (i : nat)              (* receiver [i] reads from a closed [g.done] *)
| HookCall (i : nat) (name : string) (* goroutine [i] calls the hook [name] *)
| HookReturn (i : nat)              (* the hook returns *)
| HookLog (i : nat)                 (* [log.Printf] of the outcome *)
| WgDone (i : nat).                 (* deferred [wg.Done()] *)

#[global] Instance Signal_eq_dec : EqDecision Signal.
Proof. solve_decision. Defined.
#[global] Instance Label_eq_dec : EqDecision Label.
Proof. solve_decision. Defined.

Definition set_worker_pc (i : nat) (w : Worker) (pc : WorkerPC) (s : State) : State :=
  set_workers (<[i := mkWorker (w_name w) (w_func w) pc]> (workers s)) s.

(** [step l s] is the state of the running process after action [l].  It
    is [None] when [l] is not enabled in [s] (the goroutine is elsewhere, or
    blocked) and when the process does not survive [l]: a signal that is
    not relayed to [c], because it is not one of those given to
    [signal.Notify] or because [signal.Stop(c)] has been called, gets its
    default action, which terminates the process (see [fatal]). *)
Definition step (l : Label) (s : State) : option State :=
  match l with
  | EnvSignal sig =>
      if notify s && notified sig
      then
        (* package signal sends to [c] without blocking: the signal is
           buffered when there is room and dropped otherwise *)
        if bool_decide (length (sigchan s) < sigchan_cap)%nat
        then Some (set_sigchan (sigchan s ++ [sig]) s)
        else Some s
      else None
  | EnvCancel => Some (set_cancelled true s)
  | ListenerRecv =>
      match listener s, sigchan s with
      | L_Select, _ :: rest => Some (set_listener L_Stop (set_sigchan rest s))
      | _, _ => None
      end
  | ListenerCtxDone =>
      match listener s with
      | L_Select => if cancelled s then Some (set_listener L_Exit s) else None
      | _ => None
      end
  | ListenerStop =>
      match listener s with
      | L_Stop => Some (set_listener L_Cancel (set_notify false s))
      | _ => None
      end
  | ListenerCancel =>
      match listener s with
      | L_Cancel => Some (set_listener L_Exit (set_cancelled true s))
      | _ => None
      end
  | OrchCtxDone =>
      match orch s with
      | O_AwaitCtx => if cancelled s then Some (set_orch O_Begin s) else None
      | _ => None
      end
  | OrchLogStart =>
      match orch s with
      | O_Begin =>
          Some (set_orch (O_Range (registry s))
                 (set_wg 0 (println "Shutting down in progress..." s)))
      | _ => None
      end
  | OrchSpawn name =>
      match orch s with
      | O_Range todo =>
          match todo !! name with
          | Some gracefullFunc =>
              Some (set_orch (O_Range (delete name todo))
                     (set_workers (workers s ++ [mkWorker name gracefullFunc W_Spawned])
                       (set_wg (wg s + 1) s)))
          | None => None
          end
      | _ => None
      end
  | OrchRangeEnd =>
      match orch s with
      | O_Range todo => if decide (todo = ∅) then Some (set_orch O_Wait s) else None
      | _ => None
      end
  | OrchWait =>
      match orch s with
      | O_Wait => if decide (wg s = 0%Z) then Some (set_orch O_LogOver s) else None
      | _ => None
      end
  | OrchLogOver =>
      match orch s with
      | O_LogOver => Some (set_orch O_Send (println "Shutdown is over." s))
      | _ => None
      end
  | OrchSend i =>
      match orch s, waiters s !! i with
      | O_Send, Some R_Blocked =>
          Some (set_orch O_Exit
                 (set_waiters (<[i := R_Released]> (waiters s))
                   (set_done_chan (mkChan (chan_closed (done_chan s))
                                          (S (chan_delivered (done_chan s)))) s)))
      | _, _ => None
      end
  | RecvClosed i =>
      match waiters s !! i with
      | Some R_Blocked =>
          if chan_closed (done_chan s)
          then Some (set_waiters (<[i := R_Released]> (waiters s)) s)
          else None
      | _ => None
      end
  | HookCall i name =>
      match workers s !! i with
      | Some w =>
          match w_pc w with
          | W_Spawned =>
              if decide (w_name w = name) then Some (set_worker_pc i w W_InHook s)
              else None
          | _ => None
          end
      | None => None
      end
  | HookReturn i =>
      match workers s !! i with
      | Some w =>
          match w_pc w, hook_run (w_func w) with
          | W_InHook, Succeeds => Some (set_worker_pc i w (W_Returned None) s)
          | W_InHook, Fails err => Some (set_worker_pc i w (W_Returned (Some err)) s)
          | _, _ => None
          end
      | None => None
      end
  | HookLog i =>
      match workers s !! i with
      | Some w =>
          match w_pc w with
          | W_Returned err =>
              Some (set_worker_pc i w W_Logged (println (hook_log_line (w_name w) err) s))
          | _ => None
          end
      | None => None
      end
  | WgDone i =>
      match workers s !! i with
      | Some w =>
          match w_pc w with
          | W_Logged => Some (set_worker_pc i w W_Exit (set_wg (wg s - 1) s))
          | _ => None
          end
      | None => None
      end
  end.

(** Running a schedule: [None] as soon as one action is not enabled or
    kills the process. *)
Fixpoint exec (ls : list Label) (s : State) : option State :=
  match ls with
  | [] => Some s
  | l :: rest =>
      match step l s with
      | Some s' => exec rest s'
      | None => None
      end
  end.

(** The action terminates the process: SIGINT, SIGTERM and SIGHUP all have
    that default action, and it applies to a signal that is not relayed to
    [c]. *)
Definition fatal (l : Label) (s : State) : bool :=
  match l with
  | EnvSignal sig => negb (notify s && notified sig)
  | _ => false
  end.

(** What becomes of the process along a schedule: it is still running, in
    a given state; or it was terminated, in the state it had then, and the
    rest of the schedule never happened; or the schedule asks for an action
    that is not enabled. *)
Inductive Fate : Type :=
| Alive (s : State)
| Killed (s : State)
| NotARun.

Fixpoint fate (ls : list Label) (s : State) : Fate :=
  match ls with
  | [] => Alive s
  | l :: rest =>
      if fatal l s then Killed s
      else match step l s with
           | Some s' => fate rest s'
           | None => NotARun
           end
  end.

(** The state once the constructors have returned and the [Register]
    calls made so far have left [fs] in [g.functions]: nothing is
    cancelled, [g.done] is the channel made by [NewGracefullShutdown], the
    shutdown goroutine is blocked on [<-ctx.Done()] and [nwaiters]
    goroutines are blocked on [<-g.Done()].  With [with_listener] the
    engine constructor [New] made the context: [c] is registered and the
    listener sits in its [select]; without it the context comes from the
    caller of [NewGracefullShutdown]. *)
Definition init (with_listener : bool) (fs : gmap string Hook) (nwaiters : nat) : State :=
  mkState false with_listener [] (if with_listener then L_Select else L_Exit)
          fs (done NewGracefullShutdown) O_AwaitCtx 0 [] []
          (replicate nwaiters R_Blocked).

(** The state right after [application.New] returned engine [e]. *)
Definition after_New (e : application.Engine) (nwaiters : nat) : State :=
  init true (functions (application.gracefull e)) nwaiters.

(** The state right after [NewGracefullShutdown(ctx)] and the [Register]
    calls that gave [g]. *)
Definition after_NewGracefullShutdown (g : Gracefull) (nwaiters : nat) : State :=
  init false (functions g) nwaiters.

(** *** Observations on states and schedules *)

(** The hook called by a [gracefullOne] goroutine has returned. *)
Definition returned (pc : WorkerPC) : bool :=
  match pc with
  | W_Returned _ | W_Logged | W_Exit => true
  | W_Spawned | W_InHook => false
  end.

(** What the callback hands back to [gracefullOne], when it returns. *)
Definition hook_result (h : Hook) : error :=
  match hook_run h with
  | Fails err => Some err
  | Succeeds | Blocks => None
  end.

(** Every registered callback returns, with an error or without. *)
Definition all_return (fs : gmap string Hook) : Prop :=
  map_Forall (λ _ h, hook_run h ≠ Blocks) fs.

#[global] Instance all_return_dec fs : Decision (all_return fs).
Proof. unfold all_return. apply _. Defined.

(** A receive on [g.done] would not block: the channel is closed or the
    shutdown goroutine stands at its send. *)
Definition done_ready (s : State) : bool :=
  chan_closed (done_chan s) || bool_decide (orch s = O_Send).

(** Some receiver has got past [<-g.Done()]. *)
Definition done_received (s : State) : bool :=
  bool_decide (R_Released ∈ waiters s).

(** The number of receivers that have got past [<-g.Done()]. *)
Definition released (s : State) : nat :=
  length (filter (λ r, r = R_Released) (waiters s)).

Fixpoint count_if (p : Label → bool) (ls : list Label) : nat :=
  match ls with
  | [] => 0
  | l :: rest => (if p l then 1 else 0) + count_if p rest
  end.

Definition is_env (l : Label) : bool :=
  match l with
  | EnvSignal _ | EnvCancel => true
  | _ => false
  end.

(** Actions taken by the program's own goroutines. *)
Definition program_steps (ls : list Label) : nat :=
  count_if (λ l, negb (is_env l)) ls.

(** Shutdown rounds begun: entries into [gracefullAll]. *)
Definition rounds (ls : list Label) : nat :=
  count_if (λ l, bool_decide (l = OrchLogStart)) ls.

(** Values sent on [g.done]. *)
Definition completions (ls : list Label) : nat :=
  count_if (λ l, match l with OrchSend _ => true | _ => false end) ls.

(** Calls of the hook registered under [name]. *)
Definition invocations (name : string) (ls : list Label) : nat :=
  count_if (λ l, match l with
                 | HookCall _ n => bool_decide (n = name)
                 | _ => false
                 end) ls.

(** Calls of [cancel()] by the signal listener. *)
Definition listener_cancels (ls : list Label) : nat :=
  count_if (λ l, bool_decide (l = ListenerCancel)) ls.

(** Requests to cancel, from the operating system or from the program. *)
Definition cancel_requests (ls : list Label) : nat :=
  count_if (λ l, match l with
                 | EnvSignal sig => notified sig
                 | EnvCancel => true
                 | _ => false
                 end) ls.

(** The program actions that can be enabled in [s]. *)
Definition candidates (s : State) : list Label :=
  [ListenerRecv; ListenerCtxDone; ListenerStop; ListenerCancel;
   OrchCtxDone; OrchLogStart; OrchRangeEnd; OrchWait; OrchLogOver]
  ++ match orch s with
     | O_Range todo => OrchSpawn <$> (map_to_list todo).*1
     | _ => []
     end
  ++ (OrchSend <$> seq 0 (length (waiters s)))
  ++ (RecvClosed <$> seq 0 (length (waiters s)))
  ++ mjoin (imap (λ i w, [HookCall i (w_name w); HookReturn i; HookLog i; WgDone i])
                  (workers s)).

Definition enabled (l : Label) (s : State) : bool :=
  match step l s with
  | Some _ => true
  | None => false
  end.

(** No goroutine of the program can move: each is finished or blocked. *)
Definition quiescentb (s : State) : bool :=
  forallb (λ l, negb (enabled l s)) (candidates s).

(** A bound on the actions left to the program's goroutines. *)
Definition listener_rank (pc : ListenerPC) : nat :=
  match pc with
  | L_Select => 3 | L_Stop => 2 | L_Cancel => 1 | L_Exit => 0
  end.

Definition worker_rank (pc : WorkerPC) : nat :=
  match pc with
  | W_Spawned => 4 | W_InHook => 3 | W_Returned _ => 2 | W_Logged => 1 | W_Exit => 0
  end.

Definition orch_rank (fs : gmap string Hook) (pc : OrchPC) : nat :=
  match pc with
  | O_AwaitCtx => 6 + 5 * size fs
  | O_Begin => 5 + 5 * size fs
  | O_Range todo => 4 + 5 * size todo
  | O_Wait => 3
  | O_LogOver => 2
  | O_Send => 1
  | O_Exit => 0
  end.

Definition waiter_rank (pc : WaiterPC) : nat :=
  match pc with
  | R_Blocked => 1
  | R_Released => 0
  end.

Definition measure (s : State) : nat :=
  listener_rank (listener s) + orch_rank (registry s) (orch s)
  + sum_list_with (λ w, worker_rank (w_pc w)) (workers s)
  + sum_list_with waiter_rank (waiters s).

(** *** Invariants of the reachable states *)

(** [gracefullOne] goroutines that have not yet run [wg.Done()]. *)
Definition live (ws : list Worker) : nat :=
  sum_list_with (λ w, if decide (w_pc w = W_Exit) then 0 else 1) ws.

(** [gracefullOne] goroutines for [name] that have called their hook. *)
Definition called (name : string) (ws : list Worker) : nat :=
  sum_list_with
    (λ w, if decide (w_name w = name)
          then match w_pc w with W_Spawned => 0 | _ => 1 end
          else 0) ws.

Definition has_worker (name : string) (h : Hook) (ws : list Worker) : Prop :=
  ∃ i pc, ws !! i = Some (mkWorker name h pc).

(** The entries the [range] loop has still to visit. *)
Definition todo_of (s : State) : gmap string Hook :=
  match orch s with
  | O_AwaitCtx | O_Begin => registry s
  | O_Range todo => todo
  | O_Wait | O_LogOver | O_Send | O_Exit => ∅
  end.

Definition past_wait (pc : OrchPC) : bool :=
  match pc with
  | O_LogOver | O_Send | O_Exit => true
  | _ => false
  end.

Definition round_begun (pc : OrchPC) : bool :=
  match pc with
  | O_AwaitCtx | O_Begin => false
  | _ => true
  end.

Record round_inv (fs : gmap string Hook) (nwaiters : nat) (s : State) : Prop := {
  ri_registry : registry s = fs;
  ri_open : chan_closed (done_chan s) = false;
  ri_hooks : ∀ name h,
    fs !! name = Some h ↔
    (todo_of s !! name = Some h ∨ has_worker name h (workers s));
  ri_fresh : ∀ i w, workers s !! i = Some w → todo_of s !! w_name w = None;
  ri_nodup : NoDup (w_name <$> workers s);
  ri_wg : wg s = Z.of_nat (live (workers s));
  ri_joined : past_wait (orch s) = true → live (workers s) = 0;
  ri_blocked : orch s ≠ O_Exit →
    waiters s = replicate nwaiters R_Blocked ∧ chan_delivered (done_chan s) = 0;
  ri_released : orch s = O_Exit →
    chan_delivered (done_chan s) = 1
    ∧ ∃ i, (i < nwaiters)%nat
           ∧ waiters s = <[i := R_Released]> (replicate nwaiters R_Blocked)
}.

Definition log_inv (s : State) : Prop :=
  ∀ i w, workers s !! i = Some w →
    match w_pc w with
    | W_Spawned | W_InHook => True
    | W_Returned err =>
        err = hook_result (w_func w) ∧ hook_run (w_func w) ≠ Blocks
    | W_Logged | W_Exit =>
        hook_log_line (w_name w) (hook_result (w_func w)) ∈ log s
        ∧ hook_run (w_func w) ≠ Blocks
    end.

Definition trace_inv (ls : list Label) (s : State) : Prop :=
  rounds ls = (if round_begun (orch s) then 1 else 0)
  ∧ completions ls = chan_delivered (done_chan s)
  ∧ ∀ name, invocations name ls = called name (workers s).

(** Signals taken from [c] by the listener, and its calls of
    [signal.Stop]. *)
Definition signals_received (ls : list Label) : nat :=
  count_if (λ l, bool_decide (l = ListenerRecv)) ls.

Definition handler_stops (ls : list Label) : nat :=
  count_if (λ l, bool_decide (l = ListenerStop)) ls.

Record listener_inv (ls : list Label) (s : State) : Prop := {
  li_relayed : listener s = L_Select ∨ listener s = L_Stop → notify s = true;
  li_stopped : listener s = L_Cancel ∨ listener_cancels ls = 1 → notify s = false;
  li_cap : (length (sigchan s) ≤ sigchan_cap)%nat;
  li_recv : signals_received ls =
    match listener s with
    | L_Select => 0
    | L_Stop | L_Cancel => 1
    | L_Exit => listener_cancels ls
    end;
  li_stop : handler_stops ls =
    match listener s with
    | L_Select | L_Stop => 0
    | L_Cancel => 1
    | L_Exit => listener_cancels ls
    end;
  li_once : (listener_cancels ls ≤ 1)%nat;
  li_pending : listener s ≠ L_Exit → listener_cancels ls = 0;
  li_cancelled : listener_cancels ls = 1 → cancelled s = true
}.

(** *** Further observations *)

(** [gracefullOne] goroutines that have written their log line. *)
Definition logged (ws : list Worker) : nat :=
  sum_list_with (λ w, match w_pc w with W_Logged | W_Exit => 1 | _ => 0 end) ws.

Definition start_line : string := "Shutting down in progress...".
Definition over_line : string := "Shutdown is over.".

(** The log holds the first line of [gracefullAll] once the round has
    begun, then one line per hook goroutine that has logged, then the last
    line of [gracefullAll] once it is written. *)
Definition log_shape (s : State) : Prop :=
  match orch s with
  | O_AwaitCtx | O_Begin => log s = []
  | O_Range _ | O_Wait | O_LogOver =>
      ∃ lines, log s = start_line :: lines ∧ length lines = logged (workers s)
  | O_Send | O_Exit =>
      ∃ lines, log s = start_line :: lines ++ [over_line]
               ∧ length lines = logged (workers s)
  end.

(** Signals of the schedule that [signal.Notify] asked for. *)
Definition notified_signals (ls : list Label) : nat :=
  count_if (λ l, match l with EnvSignal sig => notified sig | _ => false end) ls.

(** Calls of [cancel] from outside the listener. *)
Definition outside_cancels (ls : list Label) : nat :=
  count_if (λ l, bool_decide (l = EnvCancel)) ls.

(** Times the listener left its [select] by [case <-ctx.Done()]. *)
Definition ctx_exits (ls : list Label) : nat :=
  count_if (λ l, bool_decide (l = ListenerCtxDone)) ls.

(** After the events [events] the process can still go on to finish its
    shutdown round: some continuation is a run of the live process in
    which one value is sent on [g.done] and every hook is called once. *)
Definition can_complete_once (with_listener : bool) (fs : gmap string Hook)
    (nwaiters : nat) (events : list Label) : Prop :=
  ∃ rest s,
    fate (events ++ rest) (init with_listener fs nwaiters) = Alive s
    ∧ rounds (events ++ rest) = 1
    ∧ completions (events ++ rest) = 1
    ∧ ∀ name h, fs !! name = Some h → invocations name (events ++ rest) = 1.

(** Some registered callback never returns. *)
Definition some_blocks (fs : gmap string Hook) : Prop :=
  ∃ name h, fs !! name = Some h ∧ hook_run h = Blocks.

End goroutines.

(* ===================================================================== *)
(** ** Goroutines calling [Register] at the same time *)
(* ===================================================================== *)
Module producers.
Import lifecycle.

(** Where a goroutine inside [Register(name, gracefull)] stands: at the
    call; after the map read [_, exists := g.functions[name]]; after the
    map write [g.functions[name] = gracefull]; returned. *)
Inductive ProducerPC : Type :=
| P_Call
| P_Checked (exists_ : bool)
| P_Assigned
| P_Ret (err : error).

Record Producer : Type := mkProducer {
  p_name : string;
  p_func : Hook;
  p_pc : ProducerPC
}.

(** [g.functions], the producers, and what the [range] of [gracefullAll]
    has read once it has begun.  The struct has no other field: no mutex
    stands between these goroutines and the map. *)
Record State : Type := mkState {
  functions : gmap string Hook;
  threads : list Producer;
  snapshot : option (gmap string Hook)
}.

Inductive Label : Type :=
| Lookup (i : nat)       (* producer [i] reads the map *)
| Assign (i : nat)       (* producer [i] writes the map *)
| Return (i : nat)       (* producer [i] returns nil *)
| Range.                 (* [gracefullAll] starts reading the map *)

#[global] Instance ProducerPC_eq_dec : EqDecision ProducerPC.
Proof. solve_decision. Defined.

Definition set_pc (i : nat) (p : Producer) (pc : ProducerPC) (s : State) : State :=
  mkState (functions s) (<[i := mkProducer (p_name p) (p_func p) pc]> (threads s))
          (snapshot s).

Definition step (l : Label) (s : State) : option State :=
  match l with
  | Lookup i =>
      match threads s !! i with
      | Some p =>
          match p_pc p with
          | P_Call =>
              Some (set_pc i p (P_Checked (bool_decide (is_Some (functions s !! p_name p)))) s)
          | _ => None
          end
      | None => None
      end
  | Assign i =>
      match threads s !! i with
      | Some p =>
          match p_pc p with
          | P_Checked false =>
              Some (set_pc i p P_Assigned
                     (mkState (<[p_name p := p_func p]> (functions s)) (threads s)
                              (snapshot s)))
          | _ => None
          end
      | None => None
      end
  | Return i =>
      match threads s !! i with
      | Some p =>
          match p_pc p with
          | P_Checked true => Some (set_pc i p (P_Ret None) s) (* Already registered *)
          | P_Assigned => Some (set_pc i p (P_Ret None) s)
          | _ => None
          end
      | None => None
      end
  | Range =>
      match snapshot s with
      | None => Some (mkState (functions s) (threads s) (Some (functions s)))
      | Some _ => None
      end
  end.

Fixpoint exec (ls : list Label) (s : State) : option State :=
  match ls with
  | [] => Some s
  | l :: rest =>
      match step l s with
      | Some s' => exec rest s'
      | None => None
      end
  end.

(** Producers about to call [Register] with the given arguments, on a
    registry holding [fs]. *)
Definition init (fs : gmap string Hook) (calls : list (string * Hook)) : State :=
  mkState fs ((λ c, mkProducer (fst c) (snd c) P_Call) <$> calls) None.

(** Producer [i] stands between its read and its write of the map. *)
Definition about_to_write (p : Producer) : bool :=
  match p_pc p with
  | P_Checked false => true
  | _ => false
  end.

Definition about_to_read (p : Producer) : bool :=
  match p_pc p with
  | P_Call => true
  | _ => false
  end.

(** Two unsynchronised accesses to the map, one of them a write, can
    happen next in either order: two producers, or a producer's write
    and the read of [gracefullAll]. *)
Definition data_race (s : State) : bool :=
  let writers := length (filter (λ p, about_to_write p = true) (threads s)) in
  let readers := length (filter (λ p, about_to_read p = true) (threads s)) in
  (2 <=? writers)%nat
  || ((1 <=? writers)%nat && (1 <=? readers)%nat)
  || ((1 <=? writers)%nat && bool_decide (snapshot s = None)).

(** What a lock around the map would give: in no reachable state are two
    conflicting accesses to the map both about to happen. *)
Definition race_free (fs : gmap string Hook) (calls : list (string * Hook)) : Prop :=
  ∀ ls s, exec ls (init fs calls) = Some s → data_race s = false.

(** A callback stored under a name is not replaced later on. *)
Definition entries_stable (fs : gmap string Hook) (calls : list (string * Hook)) : Prop :=
  ∀ ls1 ls2 s1 s2 name h,
    exec ls1 (init fs calls) = Some s1 → functions s1 !! name = Some h →
    exec ls2 s1 = Some s2 → functions s2 !! name = Some h.

(** Producer [i] runs its whole call with no other action in between. *)
Definition run_alone (i : nat) (s : State) : option State :=
  match step (Lookup i) s with
  | Some s1 =>
      match step (Assign i) s1 with
      | Some s2 => step (Return i) s2
      | None => step (Return i) s1
      end
  | None => None
  end.

(** A producer about to make the call [c], and one that has made it and
    got nil back. *)
Definition waiting (c : string * Hook) : Producer :=
  mkProducer (fst c) (snd c) P_Call.
Definition returned_nil (c : string * Hook) : Producer :=
  mkProducer (fst c) (snd c) (P_Ret None).

(** The producers listed in [turns] run their calls one after the other,
    each as in [run_alone]. *)
Fixpoint run_in_turn (turns : list nat) (s : State) : option State :=
  match turns with
  | [] => Some s
  | i :: rest =>
      match run_alone i s with
      | Some s' => run_in_turn rest s'
      | None => None
      end
  end.

End producers.

(* ===================================================================== *)
(** ** A shutdown scenario *)
(* ===================================================================== *)
Module scenario.
Import lifecycle goroutines.

(** Three hooks: "a" and "c" succeed, "b" returns an error. *)
Definition hook_a : Hook := mkHook 1 Succeeds.
Definition hook_b : Hook := mkHook 2 (Fails "boom").
Definition hook_c : Hook := mkHook 3 Succeeds.

Definition registered : Gracefull :=
  RegisterAll NewGracefullShutdown [("a", hook_a); ("b", hook_b); ("c", hook_c)].

Definition hooks : gmap string Hook := functions registered.

(** Two termination signals in a row, of which the second is dropped, and
    an explicit cancel; the loop visits "b", "c", "a"; "a" is the last hook
    to return; the second receiver gets the value sent on [g.done]. *)
Definition schedule : list Label :=
  [EnvSignal SIGTERM; EnvSignal SIGINT; ListenerRecv; ListenerStop;
   ListenerCancel; EnvCancel;
   OrchCtxDone; OrchLogStart;
   OrchSpawn "b"; HookCall 0 "b"; OrchSpawn "c"; OrchSpawn "a"; OrchRangeEnd;
   HookReturn 0; HookCall 2 "a"; HookCall 1 "c"; HookLog 0;
   HookReturn 1; HookLog 1; WgDone 1; WgDone 0;
   HookReturn 2; HookLog 2; WgDone 2;
   OrchWait; OrchLogOver; OrchSend 1].

(** A second SIGTERM that arrives after [signal.Stop(c)], while the hook
    "a" is running and before "b" and "c" have been started. *)
Definition second_signal_schedule : list Label :=
  [EnvSignal SIGTERM; ListenerRecv; ListenerStop; ListenerCancel;
   OrchCtxDone; OrchLogStart; OrchSpawn "a"; HookCall 0 "a";
   EnvSignal SIGTERM].

Definition no_hooks : gmap string Hook := ∅.

(** The same run without hooks and without the signal listener. *)
Definition bare_schedule : list Label :=
  [EnvCancel; EnvCancel; OrchCtxDone; OrchLogStart; OrchRangeEnd;
   OrchWait; OrchLogOver; OrchSend 0].

(** Two producers register different callbacks under the same name; the
    second one runs its whole call between the read and the write of the
    first. *)
Definition racing_calls : list (string * Hook) := [("db", hook_a); ("db", hook_b)].

Definition racing_schedule : list producers.Label :=
  [producers.Lookup 0; producers.Lookup 1; producers.Assign 1;
   producers.Return 1; producers.Assign 0; producers.Return 0].

(** A registry with a callback that never returns, and a run in which
    every goroutine has gone as far as it can. *)
Definition hook_hang : Hook := mkHook 4 Blocks.

Definition stuck_hooks : gmap string Hook :=
  functions (RegisterAll NewGracefullShutdown [("a", hook_a); ("hang", hook_hang)]).

Definition stuck_schedule : list Label :=
  [EnvCancel; OrchCtxDone; OrchLogStart;
   OrchSpawn "hang"; OrchSpawn "a"; OrchRangeEnd;
   HookCall 1 "a"; HookCall 0 "hang"; HookReturn 1; HookLog 1; WgDone 1].

(** A full round on [hooks] that nobody waits for. *)
Definition unwatched_schedule : list Label :=
  [EnvCancel; OrchCtxDone; OrchLogStart;
   OrchSpawn "a"; OrchSpawn "b"; OrchSpawn "c"; OrchRangeEnd;
   HookCall 0 "a"; HookReturn 0; HookLog 0; WgDone 0;
   HookCall 1 "b"; HookReturn 1; HookLog 1; WgDone 1;
   HookCall 2 "c"; HookReturn 2; HookLog 2; WgDone 2;
   OrchWait; OrchLogOver].

End scenario.

(* ===================================================================== *)
(** ** Properties of the registry *)
(* ===================================================================== *)
Module LifecycleFacts.
Import lifecycle.

Lemma Register_error g name h : snd (Register g name h) = None.
Proof. unfold Register. by destruct (functions g !! name). Qed.

Lemma Register_done g name h : done (fst (Register g name h)) = done g.
Proof. unfold Register. by destruct (functions g !! name). Qed.

Lemma Register_present g name h h1 :
  functions g !! name = Some h1 → fst (Register g name h) = g.
Proof. intros Hin. unfold Register. by rewrite Hin. Qed.

Lemma Register_fresh g name h :
  functions g !! name = None →
  functions (fst (Register g name h)) = <[name := h]> (functions g).
Proof. intros Hout. unfold Register. by rewrite Hout. Qed.

Lemma Register_lookup g name h :
  functions (fst (Register g name h)) !! name
  = Some (default h (functions g !! name)).
Proof.
  unfold Register. destruct (functions g !! name) as [h1|] eqn:E; simpl.
  - exact E.
  - apply lookup_insert_eq.
Qed.

Lemma Register_others g name h :
  delete name (functions (fst (Register g name h))) = delete name (functions g).
Proof.
  unfold Register. destruct (functions g !! name) eqn:E; simpl; [done|].
  apply delete_insert_eq.
Qed.

Lemma Register_keeps g name h other h1 :
  functions g !! other = Some h1 →
  functions (fst (Register g name h)) !! other = Some h1.
Proof.
  intros Hin. unfold Register.
  destruct (functions g !! name) eqn:E; simpl; [done|].
  rewrite lookup_insert_ne; [done|]. intros ->. congruence.
Qed.

Lemma RegisterAll_done g calls : done (RegisterAll g calls) = done g.
Proof.
  revert g. induction calls as [|[n h] rest IH]; intros g; simpl; [done|].
  by rewrite IH, Register_done.
Qed.

Lemma RegisterAll_keeps g calls name h1 :
  functions g !! name = Some h1 →
  functions (RegisterAll g calls) !! name = Some h1.
Proof.
  revert g. induction calls as [|[n h] rest IH]; intros g Hin; simpl; [done|].
  apply IH. by apply Register_keeps.
Qed.

(** C7. [Register] returns a nil error for every receiver, name and
    callback: the name then maps to the callback it already had, or to the
    new one when it was absent, and no other entry changes. *)
Theorem Register_always_succeeds (g : Gracefull) (name : string) (hook : Hook) :
  snd (Register g name hook) = None
  ∧ functions (fst (Register g name hook)) !! name
    = Some (default hook (functions g !! name))
  ∧ delete name (functions (fst (Register g name hook)))
    = delete name (functions g).
Proof.
  split; [apply Register_error|].
  split; [apply Register_lookup|apply Register_others].
Qed.

End LifecycleFacts.

(* ===================================================================== *)
(** ** Properties of the engine constructor *)
(* ===================================================================== *)
Module ApplicationFacts.
Import application.

Lemma apply_options_total options :
  Forall never_panics options →
  ∀ e, ∃ e', apply_options options e = Returned e'.
Proof.
  induction 1 as [|o rest Ho _ IH]; intros e; simpl; [eauto|].
  destruct (Ho e) as [e1 ->]. apply IH.
Qed.

Lemma apply_defaults_name e :
  appName (apply_defaults e)
  = if decide (appName e = "") then "application" else appName e.
Proof. destruct e. unfold apply_defaults. simpl. repeat case_decide; simpl in *; congruence. Qed.

Lemma apply_defaults_version e :
  appVersion (apply_defaults e)
  = if decide (appVersion e = "") then "0.1.0" else appVersion e.
Proof. destruct e. unfold apply_defaults. simpl. repeat case_decide; simpl in *; congruence. Qed.

Lemma apply_defaults_env e :
  appEnv (apply_defaults e)
  = if decide (appEnv e = "") then "development" else appEnv e.
Proof. destruct e. unfold apply_defaults. simpl. repeat case_decide; simpl in *; congruence. Qed.

Lemma apply_defaults_rest e :
  appDebug (apply_defaults e) = appDebug e
  ∧ ctx (apply_defaults e) = ctx e
  ∧ gracefull (apply_defaults e) = gracefull e
  ∧ logger (apply_defaults e) = logger e.
Proof. destruct e. unfold apply_defaults. simpl. repeat case_decide; simpl in *; done. Qed.

Lemma never_panics_AppName name : never_panics (AppName name).
Proof. intros e. eexists. reflexivity. Qed.
Lemma never_panics_Version v : never_panics (Version v).
Proof. intros e. eexists. reflexivity. Qed.
Lemma never_panics_Env env : never_panics (Env env).
Proof. intros e. eexists. reflexivity. Qed.
Lemma never_panics_Debug d : never_panics (Debug d).
Proof. intros e. eexists. reflexivity. Qed.
Lemma never_panics_WithCLIMode : never_panics WithCLIMode.
Proof. intros e. eexists. reflexivity. Qed.

(** C8. When the options leave the engine as [configured], [New] returns
    an engine whose name, version and environment are those of
    [configured] where they are not empty, and "application", "0.1.0" and
    "development" where they are; the other fields are as the options
    left them. *)
Theorem New_applies_defaults (options : list Option) (configured : Engine) :
  apply_options options new_engine = Returned configured →
  ∃ engine,
    New options = Returned (Some engine, None)
    ∧ Name engine
      = (if decide (appName configured = "") then "application"
         else appName configured)
    ∧ Engine_Version engine
      = (if decide (appVersion configured = "") then "0.1.0"
         else appVersion configured)
    ∧ Engine_Env engine
      = (if decide (appEnv configured = "") then "development"
         else appEnv configured)
    ∧ Engine_Debug engine = appDebug configured
    ∧ ctx engine = ctx configured
    ∧ gracefull engine = gracefull configured
    ∧ logger engine = logger configured.
Proof.
  intros Hopts. exists (apply_defaults configured).
  unfold New. rewrite Hopts. split; [done|].
  unfold Name, Engine_Version, Engine_Env, Engine_Debug.
  rewrite apply_defaults_name, apply_defaults_version, apply_defaults_env.
  destruct (apply_defaults_rest configured) as (-> & -> & -> & ->).
  repeat split.
Qed.

Lemma New_applies_defaults_witness :
  ∃ engine,
    New [AppName "svc"; Version ""; Debug true]
    = Returned (Some engine, None)
    ∧ Name engine = "svc"
    ∧ Engine_Version engine = "0.1.0"
    ∧ Engine_Env engine = "development".
Proof.
  destruct (New_applies_defaults [AppName "svc"; Version ""; Debug true]
              (mkEngine "svc" "" "" true Background
                        lifecycle.NewGracefullShutdown None) eq_refl)
    as (engine & HNew & Hn & Hv & He & _).
  exists engine. repeat split; assumption.
Defined.

(** C10. Whatever [New] returns is a non-nil engine with a nil error, and
    [New] does return when none of its option functions panics. *)
Theorem New_never_fails (options : list Option) :
  Forall never_panics options →
  (∃ engine, New options = Returned (Some engine, None))
  ∧ (∀ ptr err, New options = Returned (ptr, err) → is_Some ptr ∧ err = None).
Proof.
  intros Hok. split.
  - destruct (apply_options_total options Hok new_engine) as [e' He'].
    exists (apply_defaults e'). unfold New. by rewrite He'.
  - intros ptr err. unfold New.
    destruct (apply_options options new_engine); [|done].
    intros [= <- <-]. split; [by eexists|done].
Qed.

Lemma New_never_fails_witness :
  (∃ engine, New [WithCLIMode; Env "prod"] = Returned (Some engine, None))
  ∧ (∀ ptr err, New [WithCLIMode; Env "prod"] = Returned (ptr, err) →
                is_Some ptr ∧ err = None).
Proof.
  apply (New_never_fails [WithCLIMode; Env "prod"]).
  repeat constructor.
  - apply never_panics_WithCLIMode.
  - apply never_panics_Env.
Defined.

End ApplicationFacts.

(* ===================================================================== *)
(** ** Properties of the goroutines *)
(* ===================================================================== *)
Module GoroutineFacts.
Import lifecycle goroutines.
Local Open Scope list_scope.
Local Open Scope nat_scope.

Lemma exec_app l1 l2 s : exec (l1 ++ l2) s = exec l1 s ≫= exec l2.
Proof.
  revert s. induction l1 as [|l l1 IH]; intros s; simpl; [done|].
  destruct (step l s); simpl; [apply IH|done].
Qed.

Lemma exec_snoc ls l s s' :
  exec (ls ++ [l]) s = Some s' ↔ ∃ s1, exec ls s = Some s1 ∧ step l s1 = Some s'.
Proof.
  rewrite exec_app. destruct (exec ls s) as [s1|]; simpl.
  - destruct (step l s1) eqn:E; split.
    + intros [= <-]. eauto.
    + intros (? & [= <-] & ?). congruence.
    + done.
    + intros (? & [= <-] & ?). congruence.
  - split; [done|]. by intros (? & ? & ?).
Qed.

Lemma count_if_app p l1 l2 : count_if p (l1 ++ l2) = count_if p l1 + count_if p l2.
Proof. induction l1 as [|l l1 IH]; simpl; [done|]. rewrite IH. lia. Qed.

Lemma count_if_snoc p ls l :
  count_if p (ls ++ [l]) = count_if p ls + (if p l then 1 else 0).
Proof. rewrite count_if_app. simpl. lia. Qed.

Lemma sum_list_with_insert {A} (f : A → nat) (l : list A) i x y :
  l !! i = Some x →
  sum_list_with f (<[i := y]> l) + f x = sum_list_with f l + f y.
Proof.
  revert i. induction l as [|a l IH]; intros [|i] Hi; simplify_eq/=.
  - lia.
  - specialize (IH _ Hi). lia.
Qed.

Lemma sum_list_with_snoc {A} (f : A → nat) (l : list A) x :
  sum_list_with f (l ++ [x]) = sum_list_with f l + f x.
Proof. rewrite sum_list_with_app. simpl. lia. Qed.

(** Unfolding one step. *)
Ltac step_inv H :=
  unfold step, set_worker_pc in H;
  repeat case_match; simplify_eq/=.

Lemma step_registry l s s' : step l s = Some s' → registry s' = registry s.
Proof. intros H. destruct l; step_inv H; done. Qed.

Ltac sum_insert :=
  repeat match goal with
  | Hw : ?ws !! ?i = Some ?x |- context [sum_list_with ?f (<[?i := ?y]> ?ws)] =>
      let E := fresh "E" in
      pose proof (sum_list_with_insert f ws i x y Hw) as E; simpl in E;
      generalize dependent (sum_list_with f (<[i := y]> ws)); intros
  end.

Ltac rewrite_pc :=
  repeat match goal with
  | H : w_pc _ = _ |- _ => rewrite H in *; clear H
  end.

Lemma step_measure l s s' :
  step l s = Some s' → is_env l = false → measure s' < measure s.
Proof.
  intros H Henv. unfold measure.
  destruct l; try discriminate; step_inv H;
    rewrite ?sum_list_with_snoc; simpl; try lia.
  - match goal with
    | Hd : ?todo !! ?k = Some _ |- _ =>
        pose proof (map_size_delete_Some k todo (mk_is_Some _ _ Hd));
        assert (size todo ≠ 0)
          by (rewrite map_size_empty_iff; intros ->; by rewrite lookup_empty in Hd)
    end. lia.
  - sum_insert. simpl in *. lia.
  - sum_insert. simpl in *. lia.
  - sum_insert; rewrite_pc; simpl in *; lia.
  - sum_insert; rewrite_pc; simpl in *; lia.
  - sum_insert; rewrite_pc; simpl in *; lia.
  - sum_insert; rewrite_pc; simpl in *; lia.
  - sum_insert; rewrite_pc; simpl in *; lia.
Qed.

Lemma step_env_measure l s s' :
  step l s = Some s' → is_env l = true → measure s' = measure s.
Proof.
  intros H Henv. destruct l; try discriminate; step_inv H; done.
Qed.

Lemma exec_measure ls s s' :
  exec ls s = Some s' → program_steps ls + measure s' ≤ measure s.
Proof.
  revert s. induction ls as [|l ls IH]; intros s H; simpl in *.
  - simplify_eq. unfold program_steps. simpl. lia.
  - destruct (step l s) as [s1|] eqn:E; [|done].
    specialize (IH _ H). unfold program_steps in *. simpl.
    destruct (is_env l) eqn:El; simpl.
    + rewrite <- (step_env_measure _ _ _ E El). lia.
    + pose proof (step_measure _ _ _ E El). lia.
Qed.

(** *** Workers *)

Lemma has_worker_insert name h ws i w pc :
  ws !! i = Some w →
  has_worker name h (<[i := mkWorker (w_name w) (w_func w) pc]> ws)
  ↔ has_worker name h ws.
Proof.
  intros Hi. unfold has_worker. split; intros (j & pc' & Hj).
  - destruct (decide (i = j)) as [->|Hne].
    + rewrite list_lookup_insert_eq in Hj by (by eapply lookup_lt_Some).
      simplify_eq. destruct w; simpl in *. eauto.
    + rewrite list_lookup_insert_ne in Hj by done. eauto.
  - destruct (decide (i = j)) as [->|Hne].
    + simplify_eq/=. exists j, pc.
      by rewrite list_lookup_insert_eq by (by eapply lookup_lt_Some).
    + exists j, pc'. by rewrite list_lookup_insert_ne.
Qed.

Lemma has_worker_snoc name h ws n f pc :
  has_worker name h (ws ++ [mkWorker n f pc])
  ↔ has_worker name h ws ∨ (name = n ∧ h = f).
Proof.
  unfold has_worker. split.
  - intros (j & pc' & Hj). apply lookup_app_Some in Hj as [Hj|[Hlen Hj]].
    + left; eauto.
    + right. destruct (j - length ws) as [|k]; simplify_eq/=. done.
  - intros [(j & pc' & Hj)|[-> ->]].
    + exists j, pc'. by apply lookup_app_l_Some.
    + exists (length ws), pc. rewrite lookup_app_r by lia.
      by rewrite Nat.sub_diag.
Qed.

Lemma names_insert (ws : list Worker) (i : nat) w f pc :
  ws !! i = Some w →
  w_name <$> <[i := mkWorker (w_name w) f pc]> ws = w_name <$> ws.
Proof.
  intros Hi. rewrite list_fmap_insert. simpl.
  apply list_insert_id. by rewrite list_lookup_fmap, Hi.
Qed.

Lemma lookup_insert_worker (ws : list Worker) (i : nat) w f pc (j : nat) x :
  ws !! i = Some w →
  <[i := mkWorker (w_name w) f pc]> ws !! j = Some x →
  ∃ y, ws !! j = Some y ∧ w_name x = w_name y.
Proof.
  intros Hi Hj. destruct (decide (i = j)) as [->|Hne].
  - rewrite list_lookup_insert_eq in Hj by (by eapply lookup_lt_Some).
    simplify_eq/=. eauto.
  - rewrite list_lookup_insert_ne in Hj by done. eauto.
Qed.

Lemma live_insert (ws : list Worker) (i : nat) w y :
  ws !! i = Some w →
  live (<[i := y]> ws) + (if decide (w_pc w = W_Exit) then 0 else 1)
  = live ws + (if decide (w_pc y = W_Exit) then 0 else 1).
Proof.
  intros Hi. unfold live.
  exact (sum_list_with_insert
           (λ w, if decide (w_pc w = W_Exit) then 0 else 1) ws i w y Hi).
Qed.

Lemma live_zero (ws : list Worker) (i : nat) w : live ws = 0 → ws !! i = Some w → w_pc w = W_Exit.
Proof.
  unfold live. intros Hz Hi.
  pose proof (sum_list_with_in w
    (λ w, if decide (w_pc w = W_Exit) then 0 else 1) ws) as Hle.
  simpl in Hle. case_decide; [done|].
  assert (w ∈ ws) as Hin by (apply list_elem_of_lookup; eauto).
  specialize (Hle Hin). lia.
Qed.

Lemma round_inv_init wl fs nw : round_inv fs nw (init wl fs nw).
Proof.
  constructor; simpl; try done.
  - intros name h. unfold has_worker. split; [eauto|].
    intros [?|(i & pc & Hi)]; [done|]. by rewrite lookup_nil in Hi.
  - constructor.
Qed.

Ltac rewrite_orch :=
  repeat match goal with
  | H : orch ?s = _ |- _ => progress (rewrite H in * )
  end.

Lemma round_inv_worker fs nw s s' i w pc :
  workers s !! i = Some w →
  w_pc w ≠ W_Exit →
  registry s' = registry s →
  done_chan s' = done_chan s →
  orch s' = orch s →
  waiters s' = waiters s →
  workers s' = <[i := mkWorker (w_name w) (w_func w) pc]> (workers s) →
  (wg s' = wg s - (if decide (pc = W_Exit) then 1 else 0))%Z →
  round_inv fs nw s →
  round_inv fs nw s'.
Proof.
  intros Hi Hpc Er Ed Eo Ew Ews Hn [Hreg Hopen Hhooks Hfresh Hnd Hwg Hjoin Hblk Hrel].
  assert (past_wait (orch s) = false) as Hpw.
  { destruct (past_wait (orch s)) eqn:E; [|done].
    destruct Hpc. eapply live_zero; eauto. }
  pose proof (live_insert (workers s) i w
                (mkWorker (w_name w) (w_func w) pc) Hi) as Hlive.
  simpl in Hlive. destruct (decide (w_pc w = W_Exit)); [done|].
  constructor; unfold todo_of; rewrite ?Er, ?Ed, ?Eo, ?Ew, ?Ews; try done.
  - intros name h. rewrite has_worker_insert by done. apply Hhooks.
  - intros j x Hj. destruct (lookup_insert_worker _ _ _ _ _ _ _ Hi Hj) as (y & Hy & ->).
    by eapply Hfresh.
  - by rewrite names_insert.
  - rewrite Hn. case_decide; lia.
  - congruence.
Qed.

Lemma no_worker_yet (reg : gmap string Hook) (ws : list Worker) :
  (∀ name h, reg !! name = Some h ↔ (reg !! name = Some h ∨ has_worker name h ws)) →
  (∀ i w, ws !! i = Some w → reg !! w_name w = None) →
  ws = [].
Proof.
  intros Hhooks Hfresh. destruct ws as [|w ws]; [done|].
  specialize (Hfresh 0 w eq_refl).
  assert (reg !! w_name w = Some (w_func w)) as Hin.
  { apply Hhooks. right. exists 0, (w_pc w). by destruct w. }
  congruence.
Qed.

Lemma round_inv_step fs nw l s s' :
  step l s = Some s' → round_inv fs nw s → round_inv fs nw s'.
Proof.
  intros H Hinv.
  destruct l;
    try (unfold step in H; repeat case_match; simplify_eq;
         match goal with
         | Hw : workers s !! ?i = Some ?w |- _ =>
             eapply (round_inv_worker fs nw s _ i w);
             [done|congruence|done|done|done|done|reflexivity|simpl; try lia|done]
         end; fail).
  all: destruct Hinv as [Hreg Hopen Hhooks Hfresh Hnd Hwg Hjoin Hblk Hrel].
  all: step_inv H; unfold todo_of in *; simpl in *; rewrite_orch; 
    constructor; simpl in *; unfold todo_of in *; simpl in *; try done.
  all: try (intros _; apply Hblk; done).
  - (* OrchLogStart: no goroutine has been started yet *)
    by rewrite (no_worker_yet _ _ Hhooks Hfresh).
  - (* OrchSpawn: the entries are split between the loop and the goroutines *)
    intros n0 h0. rewrite has_worker_snoc, Hhooks.
    destruct (decide (n0 = name)) as [->|Hne].
    + rewrite lookup_delete_eq. split.
      * intros [Hin|Hw]; [right; right; split; congruence|by right; left].
      * intros [?|[?|[_ ->]]]; [done|by right|by left].
    + rewrite lookup_delete_ne by done. naive_solver.
  - intros j x Hj. apply lookup_app_Some in Hj as [Hj|[Hlen Hj]].
    + destruct (decide (w_name x = name)) as [->|Hne].
      * apply lookup_delete_eq.
      * rewrite lookup_delete_ne by done. by eapply Hfresh.
    + destruct (j - length (workers s)) as [|k]; simplify_eq/=.
      apply lookup_delete_eq.
  - rewrite fmap_app. simpl. apply NoDup_app. split; [done|]. split.
    + intros x Hx Hx'. apply list_elem_of_singleton in Hx'. subst x.
      apply list_elem_of_fmap in Hx as (w & Hname & Hw).
      apply list_elem_of_lookup in Hw as [j Hj].
      specialize (Hfresh _ _ Hj). congruence.
    + apply NoDup_singleton.
  - unfold live in *. rewrite sum_list_with_snoc. simpl. lia.
  - (* OrchWait: the counter is zero *)
    intros _. lia.
  - (* OrchSend *)
    intros _. destruct Hblk as [Hws Hd]; [done|]. split; [lia|].
    exists i. split; [|by rewrite Hws].
    match goal with
    | Hw : waiters s !! i = Some _ |- _ =>
        apply lookup_lt_Some in Hw; by rewrite Hws, length_replicate in Hw
    end.
Qed.

(** *** The log *)

Lemma log_inv_init wl fs nw : log_inv (init wl fs nw).
Proof. intros i w Hi. simpl in Hi. by rewrite lookup_nil in Hi. Qed.

Lemma elem_of_snoc_l {A} (x y : A) (l : list A) : x ∈ l → x ∈ l ++ [y].
Proof. intros. apply elem_of_app. by left. Qed.

Lemma log_inv_step l s s' : step l s = Some s' → log_inv s → log_inv s'.
Proof.
  intros H Hinv. destruct l; step_inv H; intros j x Hj; simpl in *.
  all: try (specialize (Hinv j x Hj); destruct (w_pc x);
            intuition auto using elem_of_snoc_l; fail).
  - (* OrchSpawn *)
    apply lookup_app_Some in Hj as [Hj|[Hlen Hj]].
    + apply (Hinv j x Hj).
    + destruct (j - length (workers s)) as [|k]; simplify_eq/=. done.
  - (* HookCall, HookReturn, HookLog, WgDone *)
    destruct (decide (i = j)) as [->|Hne].
    + rewrite list_lookup_insert_eq in Hj by (by eapply lookup_lt_Some).
      by simplify_eq/=.
    + rewrite list_lookup_insert_ne in Hj by done. apply (Hinv j x Hj).
  - destruct (decide (i = j)) as [->|Hne].
    + rewrite list_lookup_insert_eq in Hj by (by eapply lookup_lt_Some).
      simplify_eq/=. unfold hook_result.
      match goal with Hr : hook_run _ = _ |- _ => rewrite Hr end. done.
    + rewrite list_lookup_insert_ne in Hj by done. apply (Hinv j x Hj).
  - destruct (decide (i = j)) as [->|Hne].
    + rewrite list_lookup_insert_eq in Hj by (by eapply lookup_lt_Some).
      simplify_eq/=. unfold hook_result.
      match goal with Hr : hook_run _ = _ |- _ => rewrite Hr end. done.
    + rewrite list_lookup_insert_ne in Hj by done. apply (Hinv j x Hj).
  - destruct (decide (i = j)) as [->|Hne].
    + rewrite list_lookup_insert_eq in Hj by (by eapply lookup_lt_Some).
      simplify_eq/=.
      match goal with
      | Hw : workers s !! j = Some ?w, Hpc : w_pc ?w = W_Returned _ |- _ =>
          pose proof (Hinv j w Hw) as Hw'; rewrite Hpc in Hw';
          destruct Hw' as [-> Hnb]
      end.
      split; [|done]. apply elem_of_app. right. by apply list_elem_of_singleton.
    + rewrite list_lookup_insert_ne in Hj by done.
      specialize (Hinv j x Hj). destruct (w_pc x);
        intuition auto using elem_of_snoc_l.
  - destruct (decide (i = j)) as [->|Hne].
    + rewrite list_lookup_insert_eq in Hj by (by eapply lookup_lt_Some).
      simplify_eq/=.
      match goal with
      | Hw : workers s !! j = Some ?w, Hpc : w_pc ?w = W_Logged |- _ =>
          pose proof (Hinv j w Hw) as Hw'; by rewrite Hpc in Hw'
      end.
    + rewrite list_lookup_insert_ne in Hj by done. apply (Hinv j x Hj).
Qed.

(** *** Schedules and what they count *)

Lemma trace_inv_init wl fs nw : trace_inv [] (init wl fs nw).
Proof. repeat split. Qed.

Lemma called_insert name (ws : list Worker) (i : nat) w pc :
  ws !! i = Some w →
  called name (<[i := mkWorker (w_name w) (w_func w) pc]> ws)
  + (if decide (w_name w = name)
     then match w_pc w with W_Spawned => 0 | _ => 1 end else 0)
  = called name ws
    + (if decide (w_name w = name)
       then match pc with W_Spawned => 0 | _ => 1 end else 0).
Proof.
  intros Hi. unfold called.
  exact (sum_list_with_insert
           (λ w, if decide (w_name w = name)
                 then match w_pc w with W_Spawned => 0 | _ => 1 end
                 else 0) ws i w _ Hi).
Qed.

Lemma called_snoc name (ws : list Worker) n f :
  called name (ws ++ [mkWorker n f W_Spawned]) = called name ws.
Proof.
  unfold called. rewrite sum_list_with_snoc. simpl. case_decide; lia.
Qed.

Lemma trace_inv_step ls l s s' :
  step l s = Some s' → trace_inv ls s → trace_inv (ls ++ [l]) s'.
Proof.
  intros H Hinv. destruct l; step_inv H.
  all: destruct Hinv as (Hr & Hc & Hi).
  all: unfold trace_inv, rounds, completions, invocations in *.
  all: rewrite !count_if_snoc; simpl.
  all: rewrite_orch; simpl in *.
  all: split; [lia|split; [lia|]].
  all: intros nm; rewrite count_if_snoc; specialize (Hi nm); simpl.
  all: rewrite ?called_snoc; try lia.
  all: match goal with
       | Hw : ?ws !! ?i = Some ?w |- context [<[?i := mkWorker _ _ ?pc]> ?ws] =>
           pose proof (called_insert nm ws i w pc Hw) as Hins
       end.
  all: rewrite_pc; simpl in *; repeat case_decide; repeat case_bool_decide;
    simplify_eq; try lia.
Qed.

(** *** The signal listener *)

Lemma listener_inv_init wl fs nw : listener_inv [] (init wl fs nw).
Proof.
  destruct wl; constructor;
    unfold signals_received, handler_stops, listener_cancels, sigchan_cap;
    simpl; try done; try lia; try (intros [?|?]; done).
Qed.

Lemma listener_inv_step ls l s s' :
  step l s = Some s' → listener_inv ls s → listener_inv (ls ++ [l]) s'.
Proof.
  intros H Hinv. destruct l; step_inv H.
  all: destruct Hinv as [Hrel Hstp Hcap Hrecv Hstop Honce Hpend Hcanc].
  all: constructor.
  all: unfold signals_received, handler_stops, listener_cancels, sigchan_cap in *.
  all: rewrite ?count_if_snoc; simpl in *; rewrite ?Nat.add_0_r; try done.
  all: repeat match goal with
         | H : listener _ = _ |- _ => progress (rewrite H in * )
         end; simpl in *; try done.
  all: try (specialize (Hpend ltac:(done))); try lia.
  all: try (intros [?|?]; (done || lia)).
  - (* EnvSignal: there was room in the buffer *)
    match goal with
    | Hc : bool_decide _ = true |- _ => apply bool_decide_eq_true in Hc
    end.
    rewrite length_app. simpl. lia.
  - intros _. apply Hrel. by left.
  - match goal with Hc : sigchan s = _ |- _ => rewrite Hc in Hcap end.
    simpl in Hcap. lia.
  - intros _. apply Hstp. by left.
Qed.

(** *** Every reachable state satisfies the invariants *)

Lemma reachable_inv wl fs nw ls s :
  exec ls (init wl fs nw) = Some s →
  round_inv fs nw s ∧ log_inv s ∧ trace_inv ls s ∧ listener_inv ls s.
Proof.
  revert s. induction ls as [|l ls IH] using rev_ind; intros s H.
  - simpl in H. simplify_eq.
    split; [apply round_inv_init|]. split; [apply log_inv_init|].
    split; [apply trace_inv_init|apply listener_inv_init].
  - apply exec_snoc in H as (s1 & H1 & Hstep).
    destruct (IH _ H1) as (Hr & Hl & Ht & Hli).
    split; [by eapply round_inv_step|]. split; [by eapply log_inv_step|].
    split; [by eapply trace_inv_step|by eapply listener_inv_step].
Qed.

(** *** Quiescence *)

Lemma enabled_Some l s : enabled l s = true ↔ is_Some (step l s).
Proof. unfold enabled. destruct (step l s); split; (done || by eexists || by intros []). Qed.

Lemma candidate_worker (ws : list Worker) i w l :
  ws !! i = Some w →
  l ∈ [HookCall i (w_name w); HookReturn i; HookLog i; WgDone i] →
  l ∈ mjoin (imap (λ i w, [HookCall i (w_name w); HookReturn i; HookLog i; WgDone i]) ws).
Proof.
  intros Hi Hl. apply list_elem_of_join. eexists. split; [exact Hl|].
  by apply (elem_of_lookup_imap_2
              (λ i w, [HookCall i (w_name w); HookReturn i; HookLog i; WgDone i]) ws w i).
Qed.

Lemma candidate_waiter (rs : list WaiterPC) i r (f : nat → Label) :
  rs !! i = Some r → f i ∈ f <$> seq 0 (length rs).
Proof.
  intros Hi. apply list_elem_of_fmap. exists i. split; [done|].
  apply elem_of_seq. apply lookup_lt_Some in Hi. lia.
Qed.

Lemma candidate_fixed l s :
  l ∈ [ListenerRecv; ListenerCtxDone; ListenerStop; ListenerCancel;
       OrchCtxDone; OrchLogStart; OrchRangeEnd; OrchWait; OrchLogOver] →
  l ∈ candidates s.
Proof. intros Hl. unfold candidates. apply elem_of_app. by left. Qed.

Lemma candidate_spawn s todo name h :
  orch s = O_Range todo → todo !! name = Some h →
  OrchSpawn name ∈ candidates s.
Proof.
  intros Ho Hn. unfold candidates. rewrite Ho.
  apply elem_of_app. right. apply elem_of_app. left.
  apply list_elem_of_fmap. exists name. split; [done|].
  apply list_elem_of_fmap. exists (name, h). split; [done|].
  by apply elem_of_map_to_list.
Qed.

Lemma candidate_send s i r :
  waiters s !! i = Some r → OrchSend i ∈ candidates s.
Proof.
  intros Hi. unfold candidates.
  apply elem_of_app. right. apply elem_of_app. right. apply elem_of_app. left.
  by eapply candidate_waiter.
Qed.

Lemma candidate_recv s i r :
  waiters s !! i = Some r → RecvClosed i ∈ candidates s.
Proof.
  intros Hi. unfold candidates.
  apply elem_of_app. right. apply elem_of_app. right.
  apply elem_of_app. right. apply elem_of_app. left.
  by eapply candidate_waiter.
Qed.

Lemma candidate_hook s i w l :
  workers s !! i = Some w →
  l ∈ [HookCall i (w_name w); HookReturn i; HookLog i; WgDone i] →
  l ∈ candidates s.
Proof.
  intros Hi Hl. unfold candidates.
  apply elem_of_app. right. apply elem_of_app. right.
  apply elem_of_app. right. apply elem_of_app. right.
  by eapply candidate_worker.
Qed.

Lemma candidates_complete l s s' :
  step l s = Some s' → is_env l = false → l ∈ candidates s.
Proof.
  intros H Henv.
  destruct l; try discriminate; step_inv H.
  all: try (apply candidate_fixed; set_solver).
  all: eauto using candidate_spawn, candidate_send, candidate_recv.
  all: eapply candidate_hook; [done|set_solver].
Qed.

Lemma forallb_elem_of {A} (f : A → bool) (l : list A) :
  forallb f l = true ↔ ∀ x, x ∈ l → f x = true.
Proof. rewrite forallb_forall. by setoid_rewrite list_elem_of_In. Qed.

Lemma candidates_program l s : l ∈ candidates s → is_env l = false.
Proof.
  intros Hl. unfold candidates in Hl.
  repeat (apply elem_of_app in Hl as [Hl|Hl]).
  - set_solver.
  - destruct (orch s); try set_solver.
  - set_solver.
  - set_solver.
  - apply list_elem_of_join in Hl as (x & Hl & Hx).
    apply elem_of_lookup_imap in Hx as (i & w & -> & _). set_solver.
Qed.

Lemma quiescentb_spec s :
  quiescentb s = true ↔ ∀ l, is_env l = false → step l s = None.
Proof.
  unfold quiescentb. rewrite forallb_elem_of. split.
  - intros Hq l Henv. destruct (step l s) as [s'|] eqn:E; [|done].
    specialize (Hq l (candidates_complete _ _ _ E Henv)).
    unfold enabled in Hq. by rewrite E in Hq.
  - intros Hq l Hl. unfold enabled.
    by rewrite (Hq l (candidates_program _ _ Hl)).
Qed.

Lemma quiescentb_blocks s l :
  quiescentb s = true → l ∈ candidates s → step l s = None.
Proof.
  unfold quiescentb. rewrite forallb_elem_of.
  intros Hq Hl. specialize (Hq l Hl). unfold enabled in Hq.
  by destruct (step l s).
Qed.

Lemma live_pos (ws : list Worker) :
  live ws ≠ 0 → ∃ i w, ws !! i = Some w ∧ w_pc w ≠ W_Exit.
Proof.
  unfold live. induction ws as [|x ws IH]; simpl; [done|].
  case_decide as Hx.
  - intros Hne. destruct IH as (i & w & Hi & Hw); [lia|].
    by exists (S i), w.
  - intros _. by exists 0, x.
Qed.

(** A state in which no goroutine can move, after cancellation, is one in
    which the shutdown goroutine has finished. *)
Lemma quiescent_completed fs nw s :
  round_inv fs nw s →
  (∀ name h, fs !! name = Some h → hook_run h ≠ Blocks) →
  0 < nw →
  cancelled s = true →
  quiescentb s = true →
  orch s = O_Exit.
Proof.
  intros [Hreg Hopen Hhooks Hfresh Hnd Hwg Hjoin Hblk Hrel] Hret Hnw Hc Hq.
  destruct (orch s) as [| |todo| | | |] eqn:Ho; [| | | | | |done]; exfalso.
  - pose proof (quiescentb_blocks s OrchCtxDone Hq) as Hn.
    unfold step in Hn. rewrite Ho, Hc in Hn.
    discriminate Hn. apply candidate_fixed. set_solver.
  - pose proof (quiescentb_blocks s OrchLogStart Hq) as Hn.
    unfold step in Hn. rewrite Ho in Hn.
    discriminate Hn. apply candidate_fixed. set_solver.
  - destruct (map_choose_or_empty todo) as [(k & h & Hk)| ->].
    + pose proof (quiescentb_blocks s (OrchSpawn k) Hq) as Hn.
      unfold step in Hn. rewrite Ho, Hk in Hn.
      discriminate Hn. by eapply candidate_spawn.
    + pose proof (quiescentb_blocks s OrchRangeEnd Hq) as Hn.
      unfold step in Hn. rewrite Ho in Hn. rewrite decide_True in Hn by done.
      discriminate Hn. apply candidate_fixed. set_solver.
  - destruct (decide (wg s = 0%Z)) as [Hz|Hnz].
    + pose proof (quiescentb_blocks s OrchWait Hq) as Hn.
      unfold step in Hn. rewrite Ho in Hn. rewrite decide_True in Hn by done.
      discriminate Hn. apply candidate_fixed. set_solver.
    + destruct (live_pos (workers s)) as (i & w & Hi & Hw); [lia|].
      assert (hook_run (w_func w) ≠ Blocks) as Hnb.
      { apply (Hret (w_name w)). apply Hhooks. right.
        exists i, (w_pc w). by destruct w. }
      destruct (w_pc w) eqn:Hpc; [| | | |done].
      * pose proof (quiescentb_blocks s (HookCall i (w_name w)) Hq) as Hn.
        unfold step in Hn. rewrite Hi, Hpc in Hn.
        rewrite decide_True in Hn by done.
        discriminate Hn. eapply candidate_hook; [done|set_solver].
      * pose proof (quiescentb_blocks s (HookReturn i) Hq) as Hn.
        unfold step in Hn. rewrite Hi, Hpc in Hn.
        destruct (hook_run (w_func w)); [| |done];
          (discriminate Hn; eapply candidate_hook; [done|set_solver]).
      * pose proof (quiescentb_blocks s (HookLog i) Hq) as Hn.
        unfold step in Hn. rewrite Hi, Hpc in Hn.
        discriminate Hn. eapply candidate_hook; [done|set_solver].
      * pose proof (quiescentb_blocks s (WgDone i) Hq) as Hn.
        unfold step in Hn. rewrite Hi, Hpc in Hn.
        discriminate Hn. eapply candidate_hook; [done|set_solver].
  - pose proof (quiescentb_blocks s OrchLogOver Hq) as Hn.
    unfold step in Hn. rewrite Ho in Hn.
    discriminate Hn. apply candidate_fixed. set_solver.
  - destruct Hblk as [Hws _]; [done|].
    assert (waiters s !! 0 = Some R_Blocked) as H0.
    { rewrite Hws. apply lookup_replicate. split; [done|lia]. }
    pose proof (quiescentb_blocks s (OrchSend 0) Hq) as Hn.
    unfold step in Hn. rewrite Ho, H0 in Hn.
    discriminate Hn. by eapply candidate_send.
Qed.

(** *** Consequences used by several properties *)

Lemma hooks_joined fs nw s :
  round_inv fs nw s → past_wait (orch s) = true →
  ∀ name h, fs !! name = Some h →
            ∃ i, workers s !! i = Some (mkWorker name h W_Exit).
Proof.
  intros [Hreg Hopen Hhooks Hfresh Hnd Hwg Hjoin Hblk Hrel] Hpw name h Hin.
  apply Hhooks in Hin as [Hin|(i & pc & Hi)].
  - unfold todo_of in Hin. destruct (orch s); try discriminate;
      by rewrite lookup_empty in Hin.
  - exists i. pose proof (live_zero _ _ _ (Hjoin Hpw) Hi) as Hpc.
    simpl in Hpc. by subst pc.
Qed.

Lemma ready_past_wait fs nw s :
  round_inv fs nw s →
  done_ready s = true ∨ done_received s = true →
  past_wait (orch s) = true.
Proof.
  intros [Hreg Hopen Hhooks Hfresh Hnd Hwg Hjoin Hblk Hrel] [Hr|Hr].
  - unfold done_ready in Hr. rewrite Hopen in Hr. simpl in Hr.
    apply bool_decide_eq_true in Hr. by rewrite Hr.
  - unfold done_received in Hr. apply bool_decide_eq_true in Hr.
    destruct (decide (orch s = O_Exit)) as [->|Hne]; [done|].
    destruct (Hblk Hne) as [Hws _]. rewrite Hws in Hr.
    by apply elem_of_replicate in Hr as [? _].
Qed.

Lemma worker_registered fs nw s i w :
  round_inv fs nw s → workers s !! i = Some w → fs !! w_name w = Some (w_func w).
Proof.
  intros Hinv Hi. apply (ri_hooks _ _ _ Hinv). right.
  exists i, (w_pc w). by destruct w.
Qed.

Lemma called_le_1 name (ws : list Worker) :
  NoDup (w_name <$> ws) → called name ws ≤ 1.
Proof.
  unfold called. induction ws as [|w ws IH]; simpl; [lia|].
  intros Hnd. apply NoDup_cons in Hnd as [Hw Hnd]. specialize (IH Hnd).
  case_decide as Hn; [|lia].
  assert (sum_list_with
            (λ w, if decide (w_name w = name)
                  then match w_pc w with W_Spawned => 0 | _ => 1 end
                  else 0) ws = 0) as ->.
  { clear IH Hnd. induction ws as [|x ws IH]; simpl; [done|].
    rewrite fmap_cons, not_elem_of_cons in Hw. destruct Hw as [Hx Hw].
    rewrite (IH Hw). case_decide; [congruence|done]. }
  destruct (w_pc w); lia.
Qed.

Lemma called_ge_1 name (ws : list Worker) (i : nat) w :
  ws !! i = Some w → w_name w = name → w_pc w ≠ W_Spawned →
  1 ≤ called name ws.
Proof.
  intros Hi Hn Hpc. unfold called.
  pose proof (sum_list_with_in w
    (λ w, if decide (w_name w = name)
          then match w_pc w with W_Spawned => 0 | _ => 1 end
          else 0) ws) as Hle.
  simpl in Hle. rewrite decide_True in Hle by done.
  destruct (w_pc w); [done| | | |];
    (etrans; [|apply Hle; apply list_elem_of_lookup; eauto]; done).
Qed.

Lemma released_blocked n :
  length (filter (λ r, r = R_Released) (replicate n R_Blocked)) = 0.
Proof.
  induction n as [|n IH]; simpl; [done|].
  by rewrite filter_cons_False.
Qed.

Lemma released_one n i :
  i < n →
  length (filter (λ r, r = R_Released)
                 (<[i := R_Released]> (replicate n R_Blocked))) = 1.
Proof.
  intros Hi. rewrite insert_replicate_lt by done.
  rewrite filter_app, filter_cons_True by done.
  rewrite length_app. simpl. rewrite !released_blocked. done.
Qed.

Lemma released_le_1 fs nw s : round_inv fs nw s → released s ≤ 1.
Proof.
  intros Hinv. unfold released.
  destruct (decide (orch s = O_Exit)) as [He|Hne].
  - destruct (ri_released _ _ _ Hinv He) as (_ & i & Hi & ->).
    by rewrite released_one.
  - destruct (ri_blocked _ _ _ Hinv Hne) as [-> _].
    rewrite released_blocked. lia.
Qed.

Lemma invocations_le_1 wl fs nw ls s name :
  exec ls (init wl fs nw) = Some s → invocations name ls ≤ 1.
Proof.
  intros H. destruct (reachable_inv _ _ _ _ _ H) as (Hr & _ & (_ & _ & Hi) & _).
  rewrite Hi. apply called_le_1, (ri_nodup _ _ _ Hr).
Qed.

Lemma invocations_joined wl fs nw ls s name h :
  exec ls (init wl fs nw) = Some s → past_wait (orch s) = true →
  fs !! name = Some h → invocations name ls = 1.
Proof.
  intros H Hpw Hin.
  pose proof (invocations_le_1 _ _ _ _ _ name H) as Hle.
  destruct (reachable_inv _ _ _ _ _ H) as (Hr & _ & (_ & _ & Hi) & _).
  destruct (hooks_joined _ _ _ Hr Hpw _ _ Hin) as [i Hw].
  pose proof (called_ge_1 name _ _ _ Hw eq_refl) as Hge.
  rewrite Hi in *. simpl in Hge. specialize (Hge ltac:(done)). lia.
Qed.

Lemma step_cancel_again s : cancelled s = true → step EnvCancel s = Some s.
Proof. intros Hc. destruct s; simpl in *; by subst. Qed.

(** *** The barrier *)

(** C1. In every state the goroutines can reach, for any registry
    (empty or not), if a receive on [g.Done()] would not block or a
    receiver has already got past it, then every registered hook is run by
    a [gracefullOne] goroutine whose call of the hook has returned. *)
Theorem completion_after_all_hooks
    (with_listener : bool) (fs : gmap string Hook) (nwaiters : nat)
    (ls : list Label) (s : State) :
  exec ls (init with_listener fs nwaiters) = Some s →
  done_ready s = true ∨ done_received s = true →
  ∀ name h, fs !! name = Some h →
    ∃ i w, workers s !! i = Some w ∧ w_name w = name ∧ w_func w = h
           ∧ returned (w_pc w) = true.
Proof.
  intros H Hready name h Hin.
  destruct (reachable_inv _ _ _ _ _ H) as (Hr & _).
  pose proof (ready_past_wait _ _ _ Hr Hready) as Hpw.
  destruct (hooks_joined _ _ _ Hr Hpw _ _ Hin) as [i Hi].
  by exists i, (mkWorker name h W_Exit).
Qed.

Lemma completion_after_all_hooks_witness :
  ∃ s, exec scenario.schedule (init true scenario.hooks 2) = Some s
       ∧ ∀ name h, scenario.hooks !! name = Some h →
           ∃ i w, workers s !! i = Some w ∧ w_name w = name ∧ w_func w = h
                  ∧ returned (w_pc w) = true.
Proof.
  eexists. split; [vm_compute; reflexivity|].
  eapply (completion_after_all_hooks true scenario.hooks 2 scenario.schedule).
  - vm_compute; reflexivity.
  - right. vm_compute; reflexivity.
Defined.

(** C2 (what the code does). The value sent on [g.done] reaches one
    receiver only and the channel is never closed: in every reachable
    state at most one of the goroutines blocked on [Done()] has been
    released, however many there are. *)
Theorem done_releases_at_most_one
    (with_listener : bool) (fs : gmap string Hook) (nwaiters : nat)
    (ls : list Label) (s : State) :
  exec ls (init with_listener fs nwaiters) = Some s →
  released s ≤ 1
  ∧ chan_closed (done_chan s) = false
  ∧ (orch s = O_Exit → ∀ i, step (OrchSend i) s = None ∧ step (RecvClosed i) s = None).
Proof.
  intros H. destruct (reachable_inv _ _ _ _ _ H) as (Hr & _).
  split; [by eapply released_le_1|]. split; [apply (ri_open _ _ _ Hr)|].
  intros Ho i. unfold step. rewrite Ho, (ri_open _ _ _ Hr).
  split; [done|]. by repeat case_match.
Qed.

Lemma done_releases_at_most_one_witness :
  ∃ s, exec scenario.bare_schedule (init false scenario.no_hooks 2) = Some s
       ∧ waiters s = [R_Released; R_Blocked]
       ∧ quiescentb s = true
       ∧ released s ≤ 1
       ∧ chan_closed (done_chan s) = false.
Proof.
  eexists. split; [vm_compute; reflexivity|].
  split; [vm_compute; reflexivity|]. split; [vm_compute; reflexivity|].
  pose proof (done_releases_at_most_one false scenario.no_hooks 2
                scenario.bare_schedule _
                ltac:(vm_compute; reflexivity)) as (Hle & Hopen & _).
  split; [exact Hle|exact Hopen].
Defined.

(** *** Duplicate registration *)

(** C3. When [name] is already registered with [hook1], a call
    [Register(name, hook2)] returns nil and leaves the receiver as it
    was, so [name] still maps to [hook1]; in the shutdown round that
    follows, the hook of [name] is called at most once, the goroutine
    that runs it calls [hook1], and once the completion signal is ready
    or received it has been called exactly once. *)
Theorem duplicate_registration_keeps_first
    (g : Gracefull) (name : string) (hook1 hook2 : Hook) :
  functions g !! name = Some hook1 →
  Register g name hook2 = (g, None)
  ∧ functions (fst (Register g name hook2)) !! name = Some hook1
  ∧ ∀ with_listener nwaiters ls s,
      exec ls (init with_listener (functions (fst (Register g name hook2))) nwaiters)
      = Some s →
      invocations name ls ≤ 1
      ∧ (∀ i w, workers s !! i = Some w → w_name w = name → w_func w = hook1)
      ∧ (done_ready s = true ∨ done_received s = true → invocations name ls = 1).
Proof.
  intros Hin.
  assert (Register g name hook2 = (g, None)) as HR.
  { unfold Register. by rewrite Hin. }
  rewrite HR. simpl. split; [done|]. split; [done|].
  intros wl nw ls s H.
  destruct (reachable_inv _ _ _ _ _ H) as (Hr & _).
  split; [by eapply invocations_le_1|]. split.
  - intros i w Hi Hn. pose proof (worker_registered _ _ _ _ _ Hr Hi) as Hw.
    rewrite Hn in Hw. congruence.
  - intros Hready. eapply invocations_joined; [done| |done].
    by eapply ready_past_wait.
Qed.

Lemma duplicate_registration_keeps_first_witness :
  Register scenario.registered "b" scenario.hook_c = (scenario.registered, None)
  ∧ ∃ s, exec scenario.schedule (init true scenario.hooks 2) = Some s
         ∧ invocations "b" scenario.schedule = 1
         ∧ ∀ i w, workers s !! i = Some w → w_name w = "b" →
                  w_func w = scenario.hook_b.
Proof.
  destruct (duplicate_registration_keeps_first
              scenario.registered "b" scenario.hook_b scenario.hook_c)
    as (HR & _ & Hround); [vm_compute; reflexivity|].
  split; [exact HR|].
  eexists. split; [vm_compute; reflexivity|].
  rewrite HR in Hround. simpl in Hround.
  edestruct (Hround true 2 scenario.schedule) as (_ & Hw & Hone);
    [vm_compute; reflexivity|].
  split; [apply Hone; right; vm_compute; reflexivity|exact Hw].
Defined.

(** *** Running to quiescence *)

Lemma step_cancelled l s s' :
  step l s = Some s' → cancelled s = true → cancelled s' = true.
Proof. intros H Hc. destruct l; step_inv H; done. Qed.

Lemma exec_cancelled ls s s' :
  exec ls s = Some s' → cancelled s = true → cancelled s' = true.
Proof.
  revert s. induction ls as [|l ls IH]; intros s H Hc; simpl in H.
  - by simplify_eq.
  - destruct (step l s) as [s1|] eqn:E; [|done].
    eauto using step_cancelled.
Qed.

Lemma forallb_false {A} (f : A → bool) (l : list A) :
  forallb f l = false → ∃ x, x ∈ l ∧ f x = false.
Proof.
  induction l as [|a l IH]; simpl; [done|].
  destruct (f a) eqn:Ha; simpl.
  - intros Hl. destruct (IH Hl) as (x & Hx & Hfx).
    exists x. split; [by apply list_elem_of_further|done].
  - intros _. exists a. split; [apply list_elem_of_here|done].
Qed.

(** From any state the program's goroutines can be run until none of them
    can move. *)
Lemma quiescence_reachable s :
  ∃ ls s', exec ls s = Some s' ∧ quiescentb s' = true.
Proof.
  remember (measure s) as n eqn:Hn. revert s Hn.
  induction n as [n IH] using lt_wf_ind. intros s ->.
  destruct (quiescentb s) eqn:Hq.
  - by exists [], s.
  - apply forallb_false in Hq as (l & Hl & Hen).
    unfold enabled in Hen. destruct (step l s) as [s1|] eqn:E; [|done].
    pose proof (step_measure _ _ _ E (candidates_program _ _ Hl)) as Hlt.
    destruct (IH _ Hlt s1 eq_refl) as (ls & s' & Hexec & Hq').
    exists (l :: ls), s'. simpl. by rewrite E.
Qed.

(** What a quiescent state looks like after cancellation. *)
Lemma quiescent_round_done wl fs nw ls s :
  all_return fs → 0 < nw →
  exec ls (init wl fs nw) = Some s →
  cancelled s = true → quiescentb s = true →
  orch s = O_Exit
  ∧ released s = 1
  ∧ completions ls = 1
  ∧ ∀ name h, fs !! name = Some h →
      invocations name ls = 1
      ∧ hook_log_line name (hook_result h) ∈ log s.
Proof.
  intros Hret Hnw H Hc Hq.
  destruct (reachable_inv _ _ _ _ _ H) as (Hr & Hl & (_ & Hcomp & _) & _).
  pose proof (quiescent_completed _ _ _ Hr Hret Hnw Hc Hq) as Ho.
  split; [done|].
  destruct (ri_released _ _ _ Hr Ho) as (Hd & i & Hi & Hws).
  split; [unfold released; rewrite Hws; by apply released_one|].
  split; [lia|].
  intros name h Hin.
  assert (past_wait (orch s) = true) as Hpw by (by rewrite Ho).
  split; [by eapply invocations_joined|].
  destruct (hooks_joined _ _ _ Hr Hpw _ _ Hin) as [j Hj].
  by destruct (Hl _ _ Hj) as [Hlog _].
Qed.

(** *** Failing hooks *)

(** C4. Let every registered hook return, with an error or without, and
    let at least one goroutine wait on [Done()].  From any reachable state
    in which the context is cancelled, the goroutines can be run on until
    none of them can move, and they can take only boundedly many actions
    in all.  In every such final state, whichever way it was reached, the
    shutdown goroutine has finished, one value has been sent on [g.done]
    and received, and every hook, failing or not, has been called exactly
    once and its outcome is in the log: the error line for a hook that
    failed, the success line for the others. *)
Theorem hook_errors_do_not_stop_shutdown
    (with_listener : bool) (fs : gmap string Hook) (nwaiters : nat)
    (ls : list Label) (s : State) :
  all_return fs →
  0 < nwaiters →
  exec ls (init with_listener fs nwaiters) = Some s →
  cancelled s = true →
  program_steps ls ≤ measure (init with_listener fs nwaiters)
  ∧ (∃ ls' s', exec ls' s = Some s' ∧ quiescentb s' = true
               ∧ orch s' = O_Exit ∧ released s' = 1
               ∧ completions (ls ++ ls') = 1)
  ∧ (quiescentb s = true →
     orch s = O_Exit
     ∧ released s = 1
     ∧ completions ls = 1
     ∧ ∀ name h, fs !! name = Some h →
         invocations name ls = 1
         ∧ hook_log_line name (hook_result h) ∈ log s).
Proof.
  intros Hret Hnw H Hc. split.
  { pose proof (exec_measure _ _ _ H). lia. }
  split; [|by apply (quiescent_round_done with_listener fs nwaiters)].
  destruct (quiescence_reachable s) as (ls' & s' & Hexec & Hq).
  exists ls', s'. split; [done|]. split; [done|].
  assert (exec (ls ++ ls') (init with_listener fs nwaiters) = Some s') as H'.
  { rewrite exec_app, H. exact Hexec. }
  pose proof (exec_cancelled _ _ _ Hexec Hc) as Hc'.
  destruct (quiescent_round_done _ _ _ _ _ Hret Hnw H' Hc' Hq)
    as (Ho & Hrel & Hcomp & _).
  done.
Qed.

Lemma hook_errors_do_not_stop_shutdown_witness :
  ∃ s, exec scenario.schedule (init true scenario.hooks 2) = Some s
       ∧ orch s = O_Exit
       ∧ released s = 1
       ∧ invocations "a" scenario.schedule = 1
       ∧ invocations "c" scenario.schedule = 1
       ∧ "Error during gracefull shutdown of b: boom" ∈ log s
       ∧ "Gracefull shutdown of a completed successfully" ∈ log s.
Proof.
  eexists. split; [vm_compute; reflexivity|].
  edestruct (hook_errors_do_not_stop_shutdown true scenario.hooks 2
               scenario.schedule) as (_ & _ & Hdone).
  - apply (bool_decide_unpack _). vm_compute. exact I.
  - lia.
  - vm_compute; reflexivity.
  - vm_compute; reflexivity.
  - destruct Hdone as (Ho & Hrel & _ & Hhooks); [vm_compute; reflexivity|].
    split; [exact Ho|]. split; [exact Hrel|].
    destruct (Hhooks "a" scenario.hook_a ltac:(vm_compute; reflexivity)) as [Ha Hla].
    destruct (Hhooks "b" scenario.hook_b ltac:(vm_compute; reflexivity)) as [Hb Hlb].
    destruct (Hhooks "c" scenario.hook_c ltac:(vm_compute; reflexivity)) as [Hcc Hlc].
    split; [exact Ha|]. split; [exact Hcc|]. split; [exact Hlb|exact Hla].
Defined.

(** *** Cancellation *)

Lemma fate_alive ls s s' : fate ls s = Alive s' ↔ exec ls s = Some s'.
Proof.
  revert s. induction ls as [|l ls IH]; intros s; simpl.
  - split; by intros [= ->].
  - destruct (fatal l s) eqn:Hf.
    + destruct l; try discriminate. simpl in Hf. unfold step.
      apply negb_true_iff in Hf. rewrite Hf. done.
    + destruct (step l s); [apply IH|done].
Qed.

Lemma fate_killed_app l1 l2 s k :
  fate l1 s = Killed k → fate (l1 ++ l2) s = Killed k.
Proof.
  revert s. induction l1 as [|l l1 IH]; intros s; simpl; [done|].
  destruct (fatal l s); [done|]. destruct (step l s); [apply IH|done].
Qed.

(** A signal given to [signal.Notify] that arrives while the listener
    stands in its [select] leaves a signal in [c]. *)
Lemma signal_at_select s sig :
  listener s = L_Select → notify s = true → notified sig = true →
  ∃ s1, step (EnvSignal sig) s = Some s1
        ∧ listener s1 = L_Select ∧ notify s1 = true
        ∧ sigchan s1 ≠ [] ∧ cancelled s1 = cancelled s.
Proof.
  intros Hl Hn Hsig. unfold step. rewrite Hn, Hsig. simpl.
  case_bool_decide as Hroom.
  - eexists. split; [done|]. simpl. repeat split; try done.
    by destruct (sigchan s).
  - exists s. repeat split; try done.
    intros Hnil. rewrite Hnil in Hroom. unfold sigchan_cap in Hroom.
    simpl in Hroom. lia.
Qed.

(** With a signal in [c] the listener takes it, calls [signal.Stop(c)] and
    only then [cancel()]. *)
Lemma listener_converts s :
  listener s = L_Select → sigchan s ≠ [] →
  ∃ s2 s3 s4,
    step ListenerRecv s = Some s2
    ∧ enabled ListenerCancel s2 = false
    ∧ step ListenerStop s2 = Some s3
    ∧ notify s3 = false ∧ cancelled s3 = cancelled s
    ∧ step ListenerCancel s3 = Some s4
    ∧ notify s4 = false ∧ cancelled s4 = true ∧ listener s4 = L_Exit.
Proof.
  intros Hl Hc. unfold enabled, step. rewrite Hl.
  destruct (sigchan s) as [|x rest]; [done|]. simpl.
  do 3 eexists. repeat split.
Qed.

Lemma round_after_cancellation wl fs nw ls s :
  all_return fs → 0 < nw →
  exec ls (init wl fs nw) = Some s →
  cancelled s = true →
  ∃ rest s',
    exec rest s = Some s'
    ∧ quiescentb s' = true
    ∧ rounds (ls ++ rest) = 1
    ∧ completions (ls ++ rest) = 1
    ∧ ∀ name h, fs !! name = Some h → invocations name (ls ++ rest) = 1.
Proof.
  intros Hret Hnw H Hc.
  destruct (quiescence_reachable s) as (rest & s' & Hexec & Hq).
  exists rest, s'. split; [done|]. split; [done|].
  assert (exec (ls ++ rest) (init wl fs nw) = Some s') as H'.
  { rewrite exec_app, H. exact Hexec. }
  pose proof (exec_cancelled _ _ _ Hexec Hc) as Hc'.
  destruct (quiescent_round_done _ _ _ _ _ Hret Hnw H' Hc' Hq)
    as (Ho & _ & Hcomp & Hinv).
  destruct (reachable_inv _ _ _ _ _ H') as (_ & _ & (Hrounds & _) & _).
  split; [by rewrite Hrounds, Ho|]. split; [done|].
  intros name h Hin. by destruct (Hinv _ _ Hin).
Qed.


Lemma exec_step l ls s s1 :
  step l s = Some s1 → exec (l :: ls) s = exec ls s1.
Proof. intros H. cbn [exec]. by rewrite H. Qed.

(** C5 (as stated). Two termination signals do not always give one round
    and one completion: when the second SIGTERM arrives after
    [signal.Stop(c)] it is no longer relayed and terminates the process.
    In the run below that happens while the first hook is running: nothing
    has been sent on [g.done], no receiver is released, two of the three
    hooks have not been started, and no continuation completes the
    round. *)
Lemma second_signal_kills_the_round :
  ¬ can_complete_once true scenario.hooks 2 scenario.second_signal_schedule
  ∧ ∃ s, fate scenario.second_signal_schedule (init true scenario.hooks 2)
         = Killed s
         ∧ cancel_requests scenario.second_signal_schedule = 2
         ∧ chan_delivered (done_chan s) = 0
         ∧ released s = 0
         ∧ length (workers s) = 1.
Proof.
  assert (∃ s, fate scenario.second_signal_schedule (init true scenario.hooks 2)
               = Killed s
               ∧ cancel_requests scenario.second_signal_schedule = 2
               ∧ chan_delivered (done_chan s) = 0
               ∧ released s = 0
               ∧ length (workers s) = 1) as Hk.
  { eexists. split; [vm_compute; reflexivity|]. repeat split. }
  split; [|exact Hk].
  destruct Hk as (k & Hk & _). intros (rest & s & Hfate & _).
  rewrite (fate_killed_app _ rest _ _ Hk) in Hfate. discriminate Hfate.
Qed.

(** C5 (amended). While the process lives cancellation is idempotent: in
    every run, however many calls of [cancel] and relayed signals it
    contains, [gracefullAll] is entered at most once, each hook is called
    at most once, at most one value is sent on [g.done], and a call of
    [cancel] on a cancelled context changes nothing; once a value has been
    sent exactly one round has taken place and every hook has been called
    exactly once.  When every hook returns and a receiver waits, two calls
    of [cancel] in a row, and likewise two termination signals in a row
    while the listener stands in its [select] (one is taken, the other
    dropped or left in [c]), can be followed by a run to the end, and that
    run has exactly one round, one call of each hook and one value sent.
    Once [signal.Stop(c)] has been called a further signal is not relayed:
    it terminates the process. *)
Theorem cancellation_is_idempotent
    (with_listener : bool) (fs : gmap string Hook) (nwaiters : nat)
    (ls : list Label) (s : State) :
  exec ls (init with_listener fs nwaiters) = Some s →
  rounds ls ≤ 1
  ∧ completions ls ≤ 1
  ∧ (∀ name, invocations name ls ≤ 1)
  ∧ (cancelled s = true → step EnvCancel s = Some s)
  ∧ (completions ls = 1 →
     rounds ls = 1 ∧ ∀ name h, fs !! name = Some h → invocations name ls = 1)
  ∧ (all_return fs → 0 < nwaiters → cancelled s = true → quiescentb s = true →
     rounds ls = 1 ∧ completions ls = 1)
  ∧ (all_return fs → 0 < nwaiters →
     ∃ rest s',
       exec (EnvCancel :: EnvCancel :: rest) s = Some s'
       ∧ quiescentb s' = true
       ∧ rounds (ls ++ EnvCancel :: EnvCancel :: rest) = 1
       ∧ completions (ls ++ EnvCancel :: EnvCancel :: rest) = 1
       ∧ ∀ name h, fs !! name = Some h →
           invocations name (ls ++ EnvCancel :: EnvCancel :: rest) = 1)
  ∧ (all_return fs → 0 < nwaiters → listener s = L_Select →
     ∀ sig1 sig2, notified sig1 = true → notified sig2 = true →
     ∃ rest s',
       exec (EnvSignal sig1 :: EnvSignal sig2 :: rest) s = Some s'
       ∧ quiescentb s' = true
       ∧ signals_received (ls ++ EnvSignal sig1 :: EnvSignal sig2 :: rest) = 1
       ∧ rounds (ls ++ EnvSignal sig1 :: EnvSignal sig2 :: rest) = 1
       ∧ completions (ls ++ EnvSignal sig1 :: EnvSignal sig2 :: rest) = 1
       ∧ ∀ name h, fs !! name = Some h →
           invocations name (ls ++ EnvSignal sig1 :: EnvSignal sig2 :: rest) = 1)
  ∧ (notify s = false → ∀ sig, fatal (EnvSignal sig) s = true).
Proof.
  intros H.
  destruct (reachable_inv _ _ _ _ _ H) as (Hr & _ & (Hrounds & Hcomp & _) & Hli).
  assert (completions ls = 1 → orch s = O_Exit) as Hexit.
  { intros H1. destruct (decide (orch s = O_Exit)) as [|Hne]; [done|].
    destruct (ri_blocked _ _ _ Hr Hne) as [_ Hd]. lia. }
  split; [rewrite Hrounds; case_match; lia|].
  split.
  { rewrite Hcomp. destruct (decide (orch s = O_Exit)) as [He|Hne].
    - destruct (ri_released _ _ _ Hr He) as [-> _]. lia.
    - destruct (ri_blocked _ _ _ Hr Hne) as [_ ->]. lia. }
  split; [intros name; by eapply invocations_le_1|].
  split; [apply step_cancel_again|].
  split.
  { intros H1. specialize (Hexit H1). split.
    - rewrite Hrounds, Hexit. done.
    - intros name h Hin. eapply invocations_joined; [done| |done].
      by rewrite Hexit. }
  split.
  { intros Hret Hnw Hc Hq.
    pose proof (quiescent_completed _ _ _ Hr Hret Hnw Hc Hq) as Ho.
    split; [by rewrite Hrounds, Ho|].
    destruct (ri_released _ _ _ Hr Ho) as [Hd _]. lia. }
  split.
  { (* two calls of cancel *)
    intros Hret Hnw.
    assert (exec (ls ++ [EnvCancel; EnvCancel])
              (init with_listener fs nwaiters)
            = Some (set_cancelled true (set_cancelled true s))) as H2.
    { rewrite exec_app, H. done. }
    destruct (round_after_cancellation _ _ _ _ _ Hret Hnw H2 eq_refl)
      as (rest & s' & Hexec & Hq & Hro & Hco & Hin).
    exists rest, s'. rewrite <- !app_assoc in *. simpl in *.
    repeat split; done. }
  split.
  { (* two termination signals *)
    intros Hret Hnw Hl sig1 sig2 Hs1 Hs2.
    pose proof (li_relayed _ _ Hli (or_introl Hl)) as Hn.
    destruct (signal_at_select s sig1 Hl Hn Hs1)
      as (s1 & Hstep1 & Hl1 & Hn1 & _ & _).
    destruct (signal_at_select s1 sig2 Hl1 Hn1 Hs2)
      as (s2 & Hstep2 & Hl2 & _ & Hc2 & _).
    destruct (listener_converts s2 Hl2 Hc2)
      as (s3 & s4 & s5 & Hrecv & _ & Hstop & _ & _ & Hcancel & _ & Hcan & _).
    assert (exec (ls ++ [EnvSignal sig1; EnvSignal sig2;
                         ListenerRecv; ListenerStop; ListenerCancel])
              (init with_listener fs nwaiters) = Some s5) as H5.
    { rewrite exec_app, H. change (Some s ≫= ?f) with (f s).
      rewrite (exec_step _ _ _ _ Hstep1), (exec_step _ _ _ _ Hstep2),
        (exec_step _ _ _ _ Hrecv), (exec_step _ _ _ _ Hstop),
        (exec_step _ _ _ _ Hcancel). done. }
    destruct (round_after_cancellation _ _ _ _ _ Hret Hnw H5 Hcan)
      as (rest & s' & Hexec & Hq & Hro & Hco & Hin).
    exists (ListenerRecv :: ListenerStop :: ListenerCancel :: rest), s'.
    rewrite <- !app_assoc in *. simpl in Hro, Hco, Hin.
    split.
    { rewrite (exec_step _ _ _ _ Hstep1), (exec_step _ _ _ _ Hstep2),
        (exec_step _ _ _ _ Hrecv), (exec_step _ _ _ _ Hstop),
        (exec_step _ _ _ _ Hcancel). exact Hexec. }
    split; [done|]. split; [|repeat split; done].
    (* only one of the two signals is taken *)
    assert (exec (ls ++ EnvSignal sig1 :: EnvSignal sig2 :: ListenerRecv
                  :: ListenerStop :: ListenerCancel :: rest)
              (init with_listener fs nwaiters) = Some s') as Hall.
    { rewrite exec_app, H. change (Some s ≫= ?f) with (f s).
      rewrite (exec_step _ _ _ _ Hstep1), (exec_step _ _ _ _ Hstep2),
        (exec_step _ _ _ _ Hrecv), (exec_step _ _ _ _ Hstop),
        (exec_step _ _ _ _ Hcancel). done. }
    destruct (reachable_inv _ _ _ _ _ Hall) as (_ & _ & _ & Hli').
    pose proof (li_once _ _ Hli') as Honce.
    pose proof (li_pending _ _ Hli') as Hpend.
    pose proof (li_recv _ _ Hli') as Hrecv'.
    assert (1 ≤ listener_cancels
                  (ls ++ EnvSignal sig1 :: EnvSignal sig2 :: ListenerRecv
                   :: ListenerStop :: ListenerCancel :: rest)) as Hge.
    { unfold listener_cancels. rewrite count_if_app. simpl. lia. }
    destruct (decide (listener s' = L_Exit)) as [He|Hne].
    - rewrite He in Hrecv'. lia.
    - specialize (Hpend Hne). lia. }
  intros Hn sig. simpl. by rewrite Hn.
Qed.

Lemma cancellation_is_idempotent_witness :
  (∃ rest s',
     exec (EnvCancel :: EnvCancel :: rest) (init true scenario.hooks 2) = Some s'
     ∧ rounds (EnvCancel :: EnvCancel :: rest) = 1
     ∧ completions (EnvCancel :: EnvCancel :: rest) = 1)
  ∧ (∃ rest s',
       exec (EnvSignal SIGTERM :: EnvSignal SIGINT :: rest)
            (init true scenario.hooks 2) = Some s'
       ∧ signals_received (EnvSignal SIGTERM :: EnvSignal SIGINT :: rest) = 1
       ∧ completions (EnvSignal SIGTERM :: EnvSignal SIGINT :: rest) = 1).
Proof.
  destruct (cancellation_is_idempotent true scenario.hooks 2 []
              (init true scenario.hooks 2) eq_refl)
    as (_ & _ & _ & _ & _ & _ & Hcancel & Hsignal & _).
  assert (all_return scenario.hooks) as Hret.
  { apply (bool_decide_unpack _). vm_compute. exact I. }
  split.
  - destruct (Hcancel Hret ltac:(lia)) as (rest & s' & He & _ & Hr & Hc & _).
    exists rest, s'. split; [exact He|]. split; [exact Hr|exact Hc].
  - destruct (Hsignal Hret ltac:(lia) eq_refl SIGTERM SIGINT eq_refl eq_refl)
      as (rest & s' & He & _ & Hs & _ & Hc & _).
    exists rest, s'. split; [exact He|]. split; [exact Hs|exact Hc].
Defined.

(** *** The signal listener *)

(** C9. While the listener stands in its [select], [c] is registered and
    the listener can only take a signal from [c], when there is one, or
    leave because the context is cancelled.  When SIGINT or SIGTERM arrives
    then, the listener takes a signal from [c], calls [signal.Stop(c)],
    after which [c] is no longer registered and the context is as it was,
    and then calls [cancel], after which the context is cancelled and the
    listener has finished; [cancel] cannot come before [signal.Stop].  In
    any run the listener takes at most one signal, stops the relay at most
    once and cancels at most once, and it has called [signal.Stop] only
    after taking a signal and [cancel] only after [signal.Stop].  Once
    [c] is no longer registered a further signal does not reach the
    program: it gets its default action. *)
Theorem listener_converts_signal_once
    (with_listener : bool) (fs : gmap string Hook) (nwaiters : nat)
    (ls : list Label) (s : State) :
  exec ls (init with_listener fs nwaiters) = Some s →
  (listener s = L_Select →
     notify s = true
     ∧ enabled ListenerRecv s = bool_decide (sigchan s ≠ [])
     ∧ enabled ListenerCtxDone s = cancelled s
     ∧ enabled ListenerStop s = false
     ∧ enabled ListenerCancel s = false)
  ∧ (listener s = L_Select → ∀ sig, notified sig = true →
     ∃ s1 s2 s3 s4,
       step (EnvSignal sig) s = Some s1
       ∧ step ListenerRecv s1 = Some s2
       ∧ enabled ListenerCancel s2 = false
       ∧ step ListenerStop s2 = Some s3
       ∧ notify s3 = false ∧ cancelled s3 = cancelled s
       ∧ step ListenerCancel s3 = Some s4
       ∧ notify s4 = false ∧ cancelled s4 = true ∧ listener s4 = L_Exit)
  ∧ (enabled ListenerStop s = true →
       signals_received ls = 1 ∧ handler_stops ls = 0)
  ∧ (enabled ListenerCancel s = true →
       signals_received ls = 1 ∧ handler_stops ls = 1 ∧ notify s = false)
  ∧ (notify s = false → ∀ sig,
       fatal (EnvSignal sig) s = true ∧ step (EnvSignal sig) s = None)
  ∧ signals_received ls ≤ 1
  ∧ handler_stops ls ≤ 1
  ∧ listener_cancels ls ≤ 1
  ∧ (listener_cancels ls = 1 →
       signals_received ls = 1 ∧ handler_stops ls = 1
       ∧ notify s = false ∧ cancelled s = true ∧ listener s = L_Exit).
Proof.
  intros H.
  destruct (reachable_inv _ _ _ _ _ H) as (_ & _ & _ & Hli).
  destruct Hli as [Hrel Hstp Hcap Hrecv Hstop Honce Hpend Hcanc].
  split.
  { intros Hl. split; [apply Hrel; by left|].
    unfold enabled, step. rewrite Hl.
    destruct (sigchan s), (cancelled s); done. }
  split.
  { intros Hl sig Hsig.
    destruct (signal_at_select s sig Hl (Hrel (or_introl Hl)) Hsig)
      as (s1 & Hstep1 & Hl1 & _ & Hc1 & Hcan1).
    destruct (listener_converts s1 Hl1 Hc1)
      as (s2 & s3 & s4 & Hr & Hnc & Hs & Hn3 & Hc3 & Hc & Hn4 & Hc4 & Hl4).
    exists s1, s2, s3, s4. rewrite Hcan1 in Hc3. repeat split; done. }
  split.
  { unfold enabled, step. destruct (listener s); done. }
  split.
  { unfold enabled, step. destruct (listener s) eqn:Hl; try done.
    intros _. split; [done|]. split; [done|]. apply Hstp. by left. }
  split.
  { intros Hn sig. unfold step. simpl. by rewrite Hn. }
  split; [rewrite Hrecv; destruct (listener s); lia|].
  split; [rewrite Hstop; destruct (listener s); lia|].
  split; [done|].
  intros H1.
  assert (listener s = L_Exit) as Hl.
  { destruct (decide (listener s = L_Exit)) as [|Hne]; [done|].
    specialize (Hpend Hne). lia. }
  rewrite Hl in Hrecv, Hstop.
  split; [lia|]. split; [lia|]. split; [apply Hstp; by right|].
  split; [by apply Hcanc|done].
Qed.

Lemma listener_converts_signal_once_witness :
  (∃ s4, exec [EnvSignal SIGINT; ListenerRecv; ListenerStop; ListenerCancel]
           (init true scenario.hooks 2) = Some s4
         ∧ notify s4 = false ∧ cancelled s4 = true ∧ listener s4 = L_Exit)
  ∧ ∃ s, exec scenario.schedule (init true scenario.hooks 2) = Some s
         ∧ signals_received scenario.schedule = 1
         ∧ handler_stops scenario.schedule = 1
         ∧ notify s = false ∧ cancelled s = true ∧ listener s = L_Exit.
Proof.
  split.
  - destruct (listener_converts_signal_once true scenario.hooks 2 []
                (init true scenario.hooks 2) eq_refl)
      as (_ & Hconv & _).
    destruct (Hconv eq_refl SIGINT eq_refl)
      as (s1 & s2 & s3 & s4 & H1 & H2 & _ & H3 & _ & _ & H4 & Hn & Hc & Hl).
    exists s4. split; [|by repeat split].
    rewrite (exec_step _ _ _ _ H1), (exec_step _ _ _ _ H2),
      (exec_step _ _ _ _ H3), (exec_step _ _ _ _ H4). done.
  - eexists. split; [vm_compute; reflexivity|].
    edestruct (listener_converts_signal_once true scenario.hooks 2 scenario.schedule)
      as (_ & _ & _ & _ & _ & _ & _ & _ & Hone); [vm_compute; reflexivity|].
    apply Hone. vm_compute; reflexivity.
Defined.

End GoroutineFacts.

(* ===================================================================== *)
(** ** Properties of concurrent registration *)
(* ===================================================================== *)
Module ProducerFacts.
Import producers.
Local Open Scope list_scope.
Local Open Scope nat_scope.

(** C6 (as stated). No lock guards the map: with two producers
    registering under the same name, a state is reached in which both are
    about to write the map, and the callback stored by the call that
    returned first is replaced by the other one. *)
Lemma concurrent_register_unguarded :
  ¬ race_free scenario.no_hooks scenario.racing_calls
  ∧ ¬ entries_stable scenario.no_hooks scenario.racing_calls.
Proof.
  split.
  - intros Hfree.
    pose proof (Hfree (take 2 scenario.racing_schedule) _ eq_refl) as Hrace.
    vm_compute in Hrace. discriminate Hrace.
  - intros Hstable.
    pose proof (Hstable (take 4 scenario.racing_schedule)
                        (drop 4 scenario.racing_schedule) _ _
                        "db" scenario.hook_b eq_refl eq_refl eq_refl) as Hkept.
    vm_compute in Hkept. discriminate Hkept.
Qed.

(** C6 (amended). The shutdown goroutines never change the hook map, and
    a producer that runs its [Register] call with no other action in
    between leaves the map as the sequential [Register] does, returns nil
    and touches nothing else. *)
Theorem register_alone_is_Register
    (s : State) (i : nat) (p : Producer)
    (l : goroutines.Label) (gs gs' : goroutines.State) :
  threads s !! i = Some p →
  p_pc p = P_Call →
  goroutines.step l gs = Some gs' →
  goroutines.registry gs' = goroutines.registry gs
  ∧ ∃ s', run_alone i s = Some s'
          ∧ functions s'
            = lifecycle.functions
                (fst (lifecycle.Register
                        (lifecycle.mkGracefull (functions s) lifecycle.make_chan)
                        (p_name p) (p_func p)))
          ∧ threads s'
            = <[i := mkProducer (p_name p) (p_func p) (P_Ret None)]> (threads s)
          ∧ snapshot s' = snapshot s.
Proof.
  intros Hi Hpc Hstep. split.
  { destruct l; unfold goroutines.step, goroutines.set_worker_pc in Hstep;
      repeat case_match; simplify_eq/=; done. }
  assert (i < length (threads s)) as Hlen by (by eapply lookup_lt_Some).
  unfold run_alone, lifecycle.Register, step. rewrite Hi, Hpc.
  unfold set_pc; simpl.
  rewrite !list_lookup_insert_eq by done. simpl.
  destruct (functions s !! p_name p) as [h|] eqn:Hin; simpl.
  - eexists. split; [done|]. simpl. by rewrite list_insert_insert_eq.
  - rewrite !list_lookup_insert_eq by (by rewrite length_insert). simpl.
    eexists. split; [done|]. simpl. by rewrite !list_insert_insert_eq.
Qed.

Lemma register_alone_is_Register_witness :
  ∃ s', run_alone 1 (init scenario.no_hooks scenario.racing_calls) = Some s'
        ∧ functions s' !! "db" = Some scenario.hook_b
        ∧ snapshot s' = None.
Proof.
  edestruct (register_alone_is_Register
               (init scenario.no_hooks scenario.racing_calls) 1
               (mkProducer "db" scenario.hook_b P_Call)
               goroutines.EnvCancel
               (goroutines.init false scenario.no_hooks 0))
    as (_ & s' & Hrun & Hf & _ & Hsnap); [reflexivity|reflexivity|reflexivity|].
  exists s'. split; [exact Hrun|]. split; [|exact Hsnap].
  rewrite Hf. vm_compute. reflexivity.
Defined.
End ProducerFacts.

(* ===================================================================== *)
(** ** Sequences of registrations *)
(* ===================================================================== *)
Module RegistryFacts.
Import lifecycle.
Local Open Scope list_scope.

Lemma Register_lookup_other g name h other :
  other ≠ name →
  functions (fst (Register g name h)) !! other = functions g !! other.
Proof.
  intros Hne. unfold Register.
  destruct (functions g !! name); simpl; [done|].
  by rewrite lookup_insert_ne.
Qed.

(** X1. After a sequence of [Register] calls a name maps to the callback
    it had before the sequence, or else to the callback of the first call
    of the sequence that names it, or to nothing when no call names it. *)
Theorem RegisterAll_first_wins
    (g : Gracefull) (calls : list (string * Hook)) (name : string) :
  functions (RegisterAll g calls) !! name
  = match functions g !! name with
    | Some h => Some h
    | None => first_registered name calls
    end.
Proof.
  revert g. induction calls as [|[n h] rest IH]; intros g; simpl.
  - by destruct (functions g !! name).
  - rewrite IH. destruct (decide (n = name)) as [->|Hne].
    + rewrite LifecycleFacts.Register_lookup.
      by destruct (functions g !! name).
    + by rewrite Register_lookup_other.
Qed.

Lemma first_registered_is_Some name calls :
  is_Some (first_registered name calls) ↔ name ∈ calls.*1.
Proof.
  induction calls as [|[n h] rest IH]; simpl.
  - split; [by intros [? ?]|by intros ?%elem_of_nil].
  - case_decide as Hn.
    + subst. split; [intros _; apply list_elem_of_here|by eexists].
    + rewrite IH. split; [apply list_elem_of_further|].
      intros [?|?]%elem_of_cons; [congruence|done].
Qed.

(** X2. A sequence of [Register] calls removes no name and adds exactly
    the names of the calls. *)
Theorem RegisterAll_names (g : Gracefull) (calls : list (string * Hook)) :
  dom (functions (RegisterAll g calls))
  = dom (functions g) ∪ list_to_set calls.*1.
Proof.
  apply set_eq. intros name.
  rewrite elem_of_union, !elem_of_dom, elem_of_list_to_set.
  rewrite RegisterAll_first_wins, <- first_registered_is_Some.
  destruct (functions g !! name) as [h|]; split; eauto.
  intros [[? ?]|?]; done.
Qed.

Lemma first_registered_elem name h calls :
  NoDup calls.*1 →
  first_registered name calls = Some h ↔ (name, h) ∈ calls.
Proof.
  induction calls as [|[n h'] rest IH]; simpl; intros Hnd.
  - split; [done|by intros ?%elem_of_nil].
  - apply NoDup_cons in Hnd as [Hn Hnd]. case_decide as Hd.
    + subst n. split.
      * intros [= ->]. apply list_elem_of_here.
      * intros [[= ->]|Hin]%elem_of_cons; [done|].
        destruct Hn. apply list_elem_of_fmap. by exists (name, h).
    + rewrite (IH Hnd). split; [apply list_elem_of_further|].
      intros [[= -> ->]|?]%elem_of_cons; [done|done].
Qed.

(** X3. When the calls of a sequence name pairwise different hooks, the
    order of the calls does not matter: any rearrangement of the sequence
    leaves the same [Gracefull]. *)
Theorem RegisterAll_order_irrelevant
    (g : Gracefull) (calls calls' : list (string * Hook)) :
  NoDup calls.*1 →
  calls ≡ₚ calls' →
  RegisterAll g calls' = RegisterAll g calls.
Proof.
  intros Hnd Hperm.
  assert (NoDup calls'.*1) as Hnd' by (by rewrite <- Hperm).
  assert (functions (RegisterAll g calls') = functions (RegisterAll g calls)) as Hf.
  { apply map_eq. intros name. rewrite !RegisterAll_first_wins.
    destruct (functions g !! name); [done|].
    apply option_eq. intros h.
    rewrite !first_registered_elem by done. by rewrite Hperm. }
  pose proof (LifecycleFacts.RegisterAll_done g calls) as Hd.
  pose proof (LifecycleFacts.RegisterAll_done g calls') as Hd'.
  destruct (RegisterAll g calls), (RegisterAll g calls'). simpl in *. congruence.
Qed.

Lemma RegisterAll_order_irrelevant_witness :
  RegisterAll NewGracefullShutdown
    [("c", scenario.hook_c); ("a", scenario.hook_a); ("b", scenario.hook_b)]
  = scenario.registered.
Proof.
  apply RegisterAll_order_irrelevant.
  - apply (bool_decide_unpack _). vm_compute. exact I.
  - apply (bool_decide_unpack _). vm_compute. exact I.
Defined.

End RegistryFacts.

(* ===================================================================== *)
(** ** Options and their order *)
(* ===================================================================== *)
Module OptionFacts.
Import application.
Local Open Scope list_scope.

Lemma apply_options_app o1 o2 e :
  apply_options (o1 ++ o2) e
  = match apply_options o1 e with
    | Returned e' => apply_options o2 e'
    | Panicked msg => Panicked msg
    end.
Proof.
  revert e. induction o1 as [|o o1 IH]; intros e; simpl; [done|].
  destruct (o e); [apply IH|done].
Qed.

(** X4. The name, the version and the environment of an engine returned
    by [New] are never empty, whatever the options did. *)
Theorem New_fields_not_empty
    (options : list Option) (engine : Engine) (err : error) :
  New options = Returned (Some engine, err) →
  Name engine ≠ "" ∧ Engine_Version engine ≠ "" ∧ Engine_Env engine ≠ "".
Proof.
  unfold New. destruct (apply_options options new_engine) as [e|]; [|done].
  intros [= <- <-]. unfold Name, Engine_Version, Engine_Env.
  rewrite ApplicationFacts.apply_defaults_name,
    ApplicationFacts.apply_defaults_version, ApplicationFacts.apply_defaults_env.
  repeat case_decide; done.
Qed.

Lemma New_fields_not_empty_witness :
  Name (mkEngine "application" "0.1.0" "development" true Background
                 lifecycle.NewGracefullShutdown None) ≠ "".
Proof.
  apply (New_fields_not_empty [AppName ""; Debug true] _ None).
  reflexivity.
Defined.

(** X5. The last option that sets a field decides it: when [AppName n],
    [Version n] or [Env n] comes last, the engine has that name, version or
    environment, and an empty [n] gives the default, as if the field had
    never been set. *)
Theorem New_last_option_wins
    (options : list Option) (configured : Engine) (n : string) :
  apply_options options new_engine = Returned configured →
  (∃ e, New (options ++ [AppName n]) = Returned (Some e, None)
        ∧ Name e = if decide (n = "") then "application" else n)
  ∧ (∃ e, New (options ++ [Version n]) = Returned (Some e, None)
          ∧ Engine_Version e = if decide (n = "") then "0.1.0" else n)
  ∧ (∃ e, New (options ++ [Env n]) = Returned (Some e, None)
          ∧ Engine_Env e = if decide (n = "") then "development" else n).
Proof.
  intros Hopts. unfold New. rewrite !apply_options_app, Hopts. simpl.
  split; [|split]; eexists; (split; [reflexivity|]).
  - unfold Name. by rewrite ApplicationFacts.apply_defaults_name.
  - unfold Engine_Version. by rewrite ApplicationFacts.apply_defaults_version.
  - unfold Engine_Env. by rewrite ApplicationFacts.apply_defaults_env.
Qed.

Lemma New_last_option_wins_witness :
  ∃ e, New ([AppName "svc"; Env "prod"] ++ [AppName ""]) = Returned (Some e, None)
       ∧ Name e = "application".
Proof.
  destruct (New_last_option_wins [AppName "svc"; Env "prod"]
              (mkEngine "svc" "" "prod" false Background
                        lifecycle.NewGracefullShutdown None) "" eq_refl)
    as (He & _).
  exact He.
Defined.

Lemma builtin_options_apply bs e0 :
  ∃ e1, apply_options (option_of <$> bs) e0 = Returned e1
        ∧ logger e1 = logger e0
        ∧ gracefull e1 = gracefull e0
        ∧ Value (ctx e1) "cli_mode"
          = if decide (OptWithCLIMode ∈ bs) then Some true
            else Value (ctx e0) "cli_mode".
Proof.
  revert e0. induction bs as [|b bs IH]; intros e0; csimpl.
  - exists e0. repeat split.
  - destruct b; csimpl;
      match goal with
      | |- context [apply_options _ ?e] =>
          destruct (IH e) as (e1 & -> & Hl & Hg & Hv)
      end;
      exists e1; (split; [done|]); (split; [done|]); (split; [done|]);
      rewrite Hv; simpl; repeat case_decide; try done; set_solver.
Qed.

(** X6. With options taken from [option.go] only, [New] always returns an
    engine; it is in CLI mode exactly when [WithCLIMode] is among the
    options; its logger is nil and no shutdown hook is registered. *)
Theorem New_with_builtin_options (bs : list BuiltinOption) :
  ∃ e, New (option_of <$> bs) = Returned (Some e, None)
       ∧ CLIMode e = bool_decide (OptWithCLIMode ∈ bs)
       ∧ Engine_Logger e = None
       ∧ lifecycle.functions (Engine_Gracefull e) = ∅.
Proof.
  destruct (builtin_options_apply bs new_engine) as (e1 & He1 & Hl & Hg & Hv).
  exists (apply_defaults e1). unfold New. rewrite He1. split; [done|].
  destruct (ApplicationFacts.apply_defaults_rest e1) as (_ & Hc & Hg' & Hl').
  unfold CLIMode, Engine_Logger, Engine_Gracefull.
  rewrite Hc, Hg', Hl', Hv, Hl, Hg. simpl.
  split; [|done]. case_decide.
  - by rewrite !bool_decide_eq_true_2.
  - by rewrite !bool_decide_eq_false_2.
Qed.


(** *** The logger options *)

(** X7. Options run before the defaults are applied: a [SetZapLogger]
    placed first builds its logger from an empty name, version and
    environment and a false debug flag, so [New] depends on the logger
    constructor only through its result on these arguments. *)
Theorem SetZapLogger_first_sees_zero_values
    (f f' : string → string → string → bool → Logger * lifecycle.Hook * error)
    (rest : list Option) :
  f "" "" "" false = f' "" "" "" false →
  New (SetZapLogger f :: rest) = New (SetZapLogger f' :: rest).
Proof.
  intros Hf. unfold New. simpl. unfold SetZapLogger. simpl. by rewrite Hf.
Qed.

Lemma SetZapLogger_first_sees_zero_values_witness :
  New [SetZapLogger (λ n _ _ _, (mkLogger n, scenario.hook_a, None));
       AppName "svc"]
  = New [SetZapLogger (λ _ _ _ _, (mkLogger "", scenario.hook_a, None));
         AppName "svc"].
Proof.
  apply SetZapLogger_first_sees_zero_values. reflexivity.
Defined.

(** X8. When the logger constructor returns an error for the values the
    earlier options have set, [New] does not return: it panics with the
    message "failed to create zap logger: " followed by the error, whatever
    options come after. *)
Theorem New_panics_when_logger_fails
    (f : string → string → string → bool → Logger * lifecycle.Hook * error)
    (before after : list Option) (configured : Engine) (err : string) :
  apply_options before new_engine = Returned configured →
  snd (f (appName configured) (appVersion configured) (appEnv configured)
         (appDebug configured)) = Some err →
  New (before ++ SetZapLogger f :: after)
  = Panicked ("failed to create zap logger: " ++ err).
Proof.
  intros Hb Hf. unfold New. rewrite apply_options_app, Hb. simpl.
  unfold SetZapLogger, Name, Engine_Version, Engine_Env, Engine_Debug.
  destruct (f _ _ _ _) as [[l c] e]. simpl in Hf. by subst e.
Qed.

Lemma New_panics_when_logger_fails_witness :
  New ([AppName "svc"]
       ++ SetZapLogger (λ _ _ _ _, (mkLogger "", scenario.hook_a, Some "no sink"))
       :: [Debug true])
  = Panicked "failed to create zap logger: no sink".
Proof.
  apply (New_panics_when_logger_fails _ [AppName "svc"] [Debug true]
           (mkEngine "svc" "" "" false Background
                     lifecycle.NewGracefullShutdown None) "no sink");
    reflexivity.
Defined.

(** X9. When a close function is already registered under "zaplogger", a
    further [SetZapLogger] replaces the engine's logger but leaves the
    registry as it was: the close function of the new logger is dropped and
    the one of the replaced logger stays registered. *)
Theorem SetZapLogger_again_drops_close
    (f : string → string → string → bool → Logger * lifecycle.Hook * error)
    (e : Engine) (close1 close2 : lifecycle.Hook) (l2 : Logger) :
  lifecycle.functions (gracefull e) !! "zaplogger" = Some close1 →
  f (Name e) (Engine_Version e) (Engine_Env e) (Engine_Debug e)
  = (l2, close2, None) →
  ∃ e', SetZapLogger f e = Returned e'
        ∧ Engine_Logger e' = Some l2
        ∧ Engine_Gracefull e' = gracefull e
        ∧ Name e' = Name e ∧ Engine_Version e' = Engine_Version e
        ∧ Engine_Env e' = Engine_Env e ∧ Engine_Debug e' = Engine_Debug e
        ∧ Engine_Context e' = Engine_Context e.
Proof.
  intros Hin Hf. unfold SetZapLogger. rewrite Hf. simpl.
  unfold lifecycle.Register. rewrite Hin. eexists. split; [done|]. done.
Qed.

Lemma SetZapLogger_again_drops_close_witness :
  ∃ e', SetZapLogger (λ _ _ _ _, (mkLogger "second", scenario.hook_b, None))
          (mkEngine "svc" "" "" false Background
             (lifecycle.RegisterAll lifecycle.NewGracefullShutdown
                [("zaplogger", scenario.hook_a)])
             (Some (mkLogger "first")))
        = Returned e'
        ∧ Engine_Logger e' = Some (mkLogger "second")
        ∧ lifecycle.functions (Engine_Gracefull e') !! "zaplogger"
          = Some scenario.hook_a.
Proof.
  edestruct (SetZapLogger_again_drops_close
               (λ _ _ _ _, (mkLogger "second", scenario.hook_b, None))
               (mkEngine "svc" "" "" false Background
                  (lifecycle.RegisterAll lifecycle.NewGracefullShutdown
                     [("zaplogger", scenario.hook_a)])
                  (Some (mkLogger "first")))
               scenario.hook_a scenario.hook_b (mkLogger "second"))
    as (e' & Hrun & Hl & Hg & _); [vm_compute; reflexivity|reflexivity|].
  exists e'. split; [exact Hrun|]. split; [exact Hl|].
  rewrite Hg. vm_compute. reflexivity.
Defined.

(** X10. [SetZapLoggerForCLI] discards the error of
    [GetFromExternalLogger]: what the option does to an engine depends
    only on the logger and the close function that were returned, so two
    wrappers that differ in their error alone give the same outcome.  The
    error of [Build] is not discarded: the option panics with it before
    the wrapper is called. *)
Theorem SetZapLoggerForCLI_ignores_wrapper_error
    (Build : ZapLogger * error)
    (GetFromExternalLogger GetFromExternalLogger' :
       ZapLogger → Logger * lifecycle.Hook * error)
    (e : Engine) :
  (∀ l, fst (GetFromExternalLogger l) = fst (GetFromExternalLogger' l)) →
  SetZapLoggerForCLI Build GetFromExternalLogger e
  = SetZapLoggerForCLI Build GetFromExternalLogger' e
  ∧ ∀ err, snd Build = Some err →
      SetZapLoggerForCLI Build GetFromExternalLogger e
      = Panicked ("failed to create zap logger for CLI: " ++ err).
Proof.
  intros Hsame. unfold SetZapLoggerForCLI.
  destruct Build as [l [err|]]; simpl.
  - split; [done|]. by intros ? [= ->].
  - split; [|done]. specialize (Hsame l).
    destruct (GetFromExternalLogger l) as [[lg c] werr].
    destruct (GetFromExternalLogger' l) as [[lg' c'] werr'].
    simpl in Hsame. by simplify_eq.
Qed.

Lemma SetZapLoggerForCLI_ignores_wrapper_error_witness :
  SetZapLoggerForCLI (mkZapLogger 0, None)
    (λ _, (mkLogger "cli", scenario.hook_b, Some "ignored")) new_engine
  = SetZapLoggerForCLI (mkZapLogger 0, None)
      (λ _, (mkLogger "cli", scenario.hook_b, None)) new_engine.
Proof.
  apply (SetZapLoggerForCLI_ignores_wrapper_error (mkZapLogger 0, None)
           (λ _, (mkLogger "cli", scenario.hook_b, Some "ignored"))
           (λ _, (mkLogger "cli", scenario.hook_b, None)) new_engine).
  intros l. reflexivity.
Defined.

(** X11. The two logger options register their close functions under
    different names: after [SetZapLogger] and then [SetZapLoggerForCLI] on
    an engine that had neither, both close functions are registered and
    the engine's logger is the one set last. *)
Theorem both_logger_options_register
    (f : string → string → string → bool → Logger * lifecycle.Hook * error)
    (zl : ZapLogger)
    (GetFromExternalLogger : ZapLogger → Logger * lifecycle.Hook * error)
    (e : Engine) (l1 l2 : Logger) (close1 close2 : lifecycle.Hook) (werr : error) :
  lifecycle.functions (gracefull e) !! "zaplogger" = None →
  lifecycle.functions (gracefull e) !! "zaplogger-cli" = None →
  f (Name e) (Engine_Version e) (Engine_Env e) (Engine_Debug e)
  = (l1, close1, None) →
  GetFromExternalLogger zl = (l2, close2, werr) →
  ∃ e', apply_options
          [SetZapLogger f; SetZapLoggerForCLI (zl, None) GetFromExternalLogger] e
        = Returned e'
        ∧ Engine_Logger e' = Some l2
        ∧ lifecycle.functions (Engine_Gracefull e')
          = <["zaplogger-cli" := close2]>
              (<["zaplogger" := close1]> (lifecycle.functions (gracefull e))).
Proof.
  intros H1 H2 Hf Hg. simpl. unfold SetZapLogger. rewrite Hf. simpl.
  unfold lifecycle.Register at 1. rewrite H1. simpl.
  unfold SetZapLoggerForCLI. rewrite Hg. simpl.
  unfold lifecycle.Register. simpl.
  rewrite lookup_insert_ne by done. rewrite H2.
  eexists. split; [done|]. done.
Qed.

Lemma both_logger_options_register_witness :
  ∃ e', apply_options
          [SetZapLogger (λ _ _ _ _, (mkLogger "zap", scenario.hook_a, None));
           SetZapLoggerForCLI (mkZapLogger 0, None)
             (λ _, (mkLogger "cli", scenario.hook_b, Some "ignored"))]
          new_engine
        = Returned e'
        ∧ Engine_Logger e' = Some (mkLogger "cli")
        ∧ size (lifecycle.functions (Engine_Gracefull e')) = 2.
Proof.
  edestruct (both_logger_options_register
               (λ _ _ _ _, (mkLogger "zap", scenario.hook_a, None))
               (mkZapLogger 0)
               (λ _, (mkLogger "cli", scenario.hook_b, Some "ignored"))
               new_engine (mkLogger "zap") (mkLogger "cli")
               scenario.hook_a scenario.hook_b (Some "ignored"))
    as (e' & Hrun & Hl & Hg); [reflexivity|reflexivity|reflexivity|reflexivity|].
  exists e'. split; [exact Hrun|]. split; [exact Hl|].
  rewrite Hg. vm_compute. reflexivity.
Defined.

End OptionFacts.

(* ===================================================================== *)
(** ** More on the shutdown round *)
(* ===================================================================== *)
Module ShutdownFacts.
Import lifecycle goroutines GoroutineFacts.
Local Open Scope list_scope.
Local Open Scope nat_scope.

(** *** Nothing happens before cancellation *)

Lemma begun_cancelled_step l s s' :
  step l s = Some s' →
  (orch s ≠ O_AwaitCtx → cancelled s = true) →
  orch s' ≠ O_AwaitCtx → cancelled s' = true.
Proof.
  intros H Hinv. destruct l; step_inv H; rewrite_orch; simpl in *;
    try done; try (intros; apply Hinv; congruence).
Qed.

Lemma begun_cancelled wl fs nw ls s :
  exec ls (init wl fs nw) = Some s → orch s ≠ O_AwaitCtx → cancelled s = true.
Proof.
  revert s. induction ls as [|l ls IH] using rev_ind; intros s H.
  - simpl in H. by simplify_eq.
  - apply exec_snoc in H as (s1 & H1 & Hstep).
    eapply begun_cancelled_step; eauto.
Qed.

Lemma log_shape_init wl fs nw : log_shape (init wl fs nw).
Proof. done. Qed.

Lemma logged_insert (ws : list Worker) (i : nat) w pc :
  ws !! i = Some w →
  logged (<[i := mkWorker (w_name w) (w_func w) pc]> ws)
  + match w_pc w with W_Logged | W_Exit => 1 | _ => 0 end
  = logged ws + match pc with W_Logged | W_Exit => 1 | _ => 0 end.
Proof.
  intros Hi. unfold logged.
  exact (sum_list_with_insert
           (λ w, match w_pc w with W_Logged | W_Exit => 1 | _ => 0 end)
           ws i w _ Hi).
Qed.

Lemma logged_snoc (ws : list Worker) n f :
  logged (ws ++ [mkWorker n f W_Spawned]) = logged ws.
Proof. unfold logged. rewrite sum_list_with_snoc. simpl. lia. Qed.

Lemma log_shape_quiet s s' (i : nat) w pc :
  workers s !! i = Some w →
  orch s' = orch s → log s' = log s →
  workers s' = <[i := mkWorker (w_name w) (w_func w) pc]> (workers s) →
  match w_pc w with W_Logged | W_Exit => 1 | _ => 0 end
  = match pc with W_Logged | W_Exit => 1 | _ => 0 end →
  log_shape s → log_shape s'.
Proof.
  intros Hi Ho Hl Hw Hsame Hshape. unfold log_shape in *.
  pose proof (logged_insert _ _ _ pc Hi) as Hins.
  rewrite Ho, Hl, Hw. rewrite Hsame in Hins.
  assert (logged (<[i := mkWorker (w_name w) (w_func w) pc]> (workers s))
          = logged (workers s)) as -> by lia.
  done.
Qed.

Lemma log_shape_hooklog fs nw s s' (i : nat) w err line :
  round_inv fs nw s →
  workers s !! i = Some w → w_pc w = W_Returned err →
  orch s' = orch s → log s' = log s ++ [line] →
  workers s' = <[i := mkWorker (w_name w) (w_func w) W_Logged]> (workers s) →
  log_shape s → log_shape s'.
Proof.
  intros Hr Hi Hpc Ho Hl Hw Hshape. unfold log_shape in *.
  pose proof (logged_insert _ _ _ W_Logged Hi) as Hins.
  rewrite Hpc in Hins. simpl in Hins.
  assert (past_wait (orch s) = false) as Hpw.
  { destruct (past_wait (orch s)) eqn:E; [|done].
    pose proof (live_zero _ _ _ (ri_joined _ _ _ Hr E) Hi). congruence. }
  assert (workers s ≠ []) as Hne by (intros Hnil; by rewrite Hnil in Hi).
  pose proof (ri_hooks _ _ _ Hr) as Hhooks.
  pose proof (ri_fresh _ _ _ Hr) as Hfresh.
  rewrite <- (ri_registry _ _ _ Hr) in Hhooks.
  rewrite Ho, Hl, Hw. unfold todo_of in *.
  destruct (orch s); try done.
  - destruct Hne. by eapply no_worker_yet.
  - destruct Hne. by eapply no_worker_yet.
  - destruct Hshape as (lines & Hlog & Hlen).
    exists (lines ++ [line]). rewrite Hlog, length_app. simpl. split; [done|lia].
  - destruct Hshape as (lines & Hlog & Hlen).
    exists (lines ++ [line]). rewrite Hlog, length_app. simpl. split; [done|lia].
Qed.

Lemma log_shape_step fs nw l s s' :
  round_inv fs nw s → step l s = Some s' → log_shape s → log_shape s'.
Proof.
  intros Hr H Hshape.
  destruct l; step_inv H;
    try (eapply log_shape_quiet; [eassumption|done|done|reflexivity| |done];
         rewrite_pc; done);
    try (eapply log_shape_hooklog; [done|eassumption|eassumption|done|reflexivity|reflexivity|done]).
  all: unfold log_shape in *; simpl in *; rewrite_orch; simpl in *; try done.
  - (* OrchLogStart *)
    pose proof (ri_hooks _ _ _ Hr) as Hhooks.
    pose proof (ri_fresh _ _ _ Hr) as Hfresh.
    rewrite <- (ri_registry _ _ _ Hr) in Hhooks.
    unfold todo_of in *. rewrite_orch.
    rewrite (no_worker_yet _ _ Hhooks Hfresh). exists []. by rewrite Hshape.
  - (* OrchSpawn *)
    by rewrite logged_snoc.
  - (* OrchLogOver *)
    destruct Hshape as (lines & -> & Hlen). by exists lines.
Qed.

Lemma reachable_log_shape wl fs nw ls s :
  exec ls (init wl fs nw) = Some s → log_shape s.
Proof.
  revert s. induction ls as [|l ls IH] using rev_ind; intros s H.
  - simpl in H. by simplify_eq.
  - apply exec_snoc in H as (s1 & H1 & Hstep).
    destruct (reachable_inv _ _ _ _ _ H1) as (Hr & _).
    eapply log_shape_step; eauto.
Qed.


(** X12. Until the context is cancelled nothing of the shutdown happens:
    the shutdown goroutine is still blocked on [<-ctx.Done()], no hook
    goroutine exists, no hook has been called, nothing has been logged and
    nothing has been sent on [g.done]. *)
Theorem nothing_before_cancellation
    (with_listener : bool) (fs : gmap string Hook) (nwaiters : nat)
    (ls : list Label) (s : State) :
  exec ls (init with_listener fs nwaiters) = Some s →
  cancelled s = false →
  orch s = O_AwaitCtx
  ∧ workers s = []
  ∧ log s = []
  ∧ rounds ls = 0
  ∧ completions ls = 0
  ∧ released s = 0
  ∧ ∀ name, invocations name ls = 0.
Proof.
  intros H Hc.
  assert (orch s = O_AwaitCtx) as Ho.
  { destruct (decide (orch s = O_AwaitCtx)) as [|Hne]; [done|].
    pose proof (begun_cancelled _ _ _ _ _ H Hne). congruence. }
  destruct (reachable_inv _ _ _ _ _ H) as (Hr & _ & (Hrounds & Hcomp & Hinv) & _).
  pose proof (reachable_log_shape _ _ _ _ _ H) as Hshape.
  unfold log_shape in Hshape. rewrite Ho in Hshape, Hrounds.
  assert (workers s = []) as Hws.
  { pose proof (ri_hooks _ _ _ Hr) as Hhooks.
    pose proof (ri_fresh _ _ _ Hr) as Hfresh.
    rewrite <- (ri_registry _ _ _ Hr) in Hhooks.
    unfold todo_of in *. rewrite Ho in Hhooks, Hfresh.
    by eapply no_worker_yet. }
  destruct (ri_blocked _ _ _ Hr) as [Hwt Hd]; [by rewrite Ho|].
  split; [done|]. split; [done|]. split; [done|]. split; [done|].
  split; [lia|]. split.
  - unfold released. rewrite Hwt. apply released_blocked.
  - intros name. by rewrite Hinv, Hws.
Qed.

Lemma nothing_before_cancellation_witness :
  ∃ s, exec [EnvSignal SIGTERM; EnvSignal SIGINT; ListenerRecv; ListenerStop]
            (init true scenario.hooks 2) = Some s
       ∧ orch s = O_AwaitCtx ∧ log s = [].
Proof.
  eexists. split; [vm_compute; reflexivity|].
  edestruct (nothing_before_cancellation true scenario.hooks 2
               [EnvSignal SIGTERM; EnvSignal SIGINT; ListenerRecv; ListenerStop])
    as (Ho & _ & Hl & _); [vm_compute; reflexivity|vm_compute; reflexivity|].
  split; [exact Ho|exact Hl].
Defined.

(** *** Hooks that never return, rounds nobody waits for *)

(** X13. There is no timeout: when some registered callback never
    returns, [wg.Wait()] never returns either.  In every reachable state
    the last log line of [gracefullAll] is unwritten, nothing has been sent
    on [g.done], no receive on it can proceed and no receiver is
    released, whatever the other hooks do. *)
Theorem blocking_hook_blocks_completion
    (with_listener : bool) (fs : gmap string Hook) (nwaiters : nat)
    (ls : list Label) (s : State) :
  some_blocks fs →
  exec ls (init with_listener fs nwaiters) = Some s →
  past_wait (orch s) = false
  ∧ done_ready s = false
  ∧ done_received s = false
  ∧ completions ls = 0
  ∧ released s = 0.
Proof.
  intros (name & h & Hin & Hb) H.
  destruct (reachable_inv _ _ _ _ _ H) as (Hr & Hl & (_ & Hcomp & _) & _).
  assert (past_wait (orch s) = false) as Hpw.
  { destruct (past_wait (orch s)) eqn:E; [|done].
    destruct (hooks_joined _ _ _ Hr E _ _ Hin) as [i Hi].
    destruct (Hl _ _ Hi) as [_ Hnb]. simpl in Hnb. congruence. }
  assert (orch s ≠ O_Exit) as Hne by (intros He; by rewrite He in Hpw).
  destruct (ri_blocked _ _ _ Hr Hne) as [Hwt Hd].
  split; [done|].
  split.
  { destruct (done_ready s) eqn:E; [|done].
    pose proof (ready_past_wait _ _ _ Hr (or_introl E)). congruence. }
  split.
  { destruct (done_received s) eqn:E; [|done].
    pose proof (ready_past_wait _ _ _ Hr (or_intror E)). congruence. }
  split; [lia|]. unfold released. rewrite Hwt. apply released_blocked.
Qed.


Lemma blocking_hook_blocks_completion_witness :
  ∃ s, exec scenario.stuck_schedule (init false scenario.stuck_hooks 1) = Some s
       ∧ quiescentb s = true
       ∧ orch s = O_Wait
       ∧ done_ready s = false
       ∧ released s = 0.
Proof.
  eexists. split; [vm_compute; reflexivity|].
  split; [vm_compute; reflexivity|]. split; [vm_compute; reflexivity|].
  edestruct (blocking_hook_blocks_completion false scenario.stuck_hooks 1
               scenario.stuck_schedule) as (_ & Hr & _ & _ & Hrel).
  - exists "hang", scenario.hook_hang. split; vm_compute; reflexivity.
  - vm_compute; reflexivity.
  - split; [exact Hr|exact Hrel].
Defined.

(** A state in which no goroutine can move, after cancellation, is one in
    which the shutdown goroutine stands at its send or has finished. *)
Lemma quiescent_at_send fs nw s :
  round_inv fs nw s → all_return fs →
  cancelled s = true → quiescentb s = true →
  orch s = O_Send ∨ orch s = O_Exit.
Proof.
  intros [Hreg Hopen Hhooks Hfresh Hnd Hwg Hjoin Hblk Hrel] Hret Hc Hq.
  destruct (orch s) as [| |todo| | | |] eqn:Ho; [| | | | |by left|by right]; exfalso.
  - pose proof (quiescentb_blocks s OrchCtxDone Hq) as Hn.
    unfold step in Hn. rewrite Ho, Hc in Hn.
    discriminate Hn. apply candidate_fixed. set_solver.
  - pose proof (quiescentb_blocks s OrchLogStart Hq) as Hn.
    unfold step in Hn. rewrite Ho in Hn.
    discriminate Hn. apply candidate_fixed. set_solver.
  - destruct (map_choose_or_empty todo) as [(k & h & Hk)| ->].
    + pose proof (quiescentb_blocks s (OrchSpawn k) Hq) as Hn.
      unfold step in Hn. rewrite Ho, Hk in Hn.
      discriminate Hn. by eapply candidate_spawn.
    + pose proof (quiescentb_blocks s OrchRangeEnd Hq) as Hn.
      unfold step in Hn. rewrite Ho in Hn. rewrite decide_True in Hn by done.
      discriminate Hn. apply candidate_fixed. set_solver.
  - destruct (decide (wg s = 0%Z)) as [Hz|Hnz].
    + pose proof (quiescentb_blocks s OrchWait Hq) as Hn.
      unfold step in Hn. rewrite Ho in Hn. rewrite decide_True in Hn by done.
      discriminate Hn. apply candidate_fixed. set_solver.
    + destruct (live_pos (workers s)) as (i & w & Hi & Hw); [lia|].
      assert (hook_run (w_func w) ≠ Blocks) as Hnb.
      { apply (Hret (w_name w)). apply Hhooks. right.
        exists i, (w_pc w). by destruct w. }
      destruct (w_pc w) eqn:Hpc; [| | | |done].
      * pose proof (quiescentb_blocks s (HookCall i (w_name w)) Hq) as Hn.
        unfold step in Hn. rewrite Hi, Hpc in Hn.
        rewrite decide_True in Hn by done.
        discriminate Hn. eapply candidate_hook; [done|set_solver].
      * pose proof (quiescentb_blocks s (HookReturn i) Hq) as Hn.
        unfold step in Hn. rewrite Hi, Hpc in Hn.
        destruct (hook_run (w_func w)); [| |done];
          (discriminate Hn; eapply candidate_hook; [done|set_solver]).
      * pose proof (quiescentb_blocks s (HookLog i) Hq) as Hn.
        unfold step in Hn. rewrite Hi, Hpc in Hn.
        discriminate Hn. eapply candidate_hook; [done|set_solver].
      * pose proof (quiescentb_blocks s (WgDone i) Hq) as Hn.
        unfold step in Hn. rewrite Hi, Hpc in Hn.
        discriminate Hn. eapply candidate_hook; [done|set_solver].
  - pose proof (quiescentb_blocks s OrchLogOver Hq) as Hn.
    unfold step in Hn. rewrite Ho in Hn.
    discriminate Hn. apply candidate_fixed. set_solver.
Qed.

(** X14. The send on [g.done] needs a receiver: when no goroutine ever
    reads [Done()], the shutdown goroutine never finishes and nothing is
    ever sent; once every hook has returned and no goroutine can move it
    stands blocked at the send, with the last log line written. *)
Theorem shutdown_goroutine_needs_receiver
    (with_listener : bool) (fs : gmap string Hook)
    (ls : list Label) (s : State) :
  exec ls (init with_listener fs 0) = Some s →
  orch s ≠ O_Exit
  ∧ completions ls = 0
  ∧ (all_return fs → cancelled s = true → quiescentb s = true →
     orch s = O_Send ∧ last (log s) = Some over_line).
Proof.
  intros H.
  destruct (reachable_inv _ _ _ _ _ H) as (Hr & _ & (_ & Hcomp & _) & _).
  assert (orch s ≠ O_Exit) as Hne.
  { intros He. destruct (ri_released _ _ _ Hr He) as (_ & i & Hi & _). lia. }
  destruct (ri_blocked _ _ _ Hr Hne) as [_ Hd].
  split; [done|]. split; [lia|].
  intros Hret Hc Hq.
  destruct (quiescent_at_send _ _ _ Hr Hret Hc Hq) as [Ho|Ho]; [|done].
  split; [done|].
  pose proof (reachable_log_shape _ _ _ _ _ H) as Hshape.
  unfold log_shape in Hshape. rewrite Ho in Hshape.
  destruct Hshape as (lines & -> & _).
  by rewrite app_comm_cons, last_snoc.
Qed.

Lemma shutdown_goroutine_needs_receiver_witness :
  ∃ s, exec scenario.unwatched_schedule (init false scenario.hooks 0) = Some s
       ∧ orch s = O_Send ∧ last (log s) = Some over_line.
Proof.
  eexists. split; [vm_compute; reflexivity|].
  edestruct (shutdown_goroutine_needs_receiver false scenario.hooks
               scenario.unwatched_schedule) as (_ & _ & Hq);
    [vm_compute; reflexivity|].
  apply Hq.
  - apply (bool_decide_unpack _). vm_compute. exact I.
  - vm_compute; reflexivity.
  - vm_compute; reflexivity.
Defined.


(** *** Counting goroutines and log lines *)

Lemma workers_and_todo fs nw s :
  round_inv fs nw s →
  length (workers s) + size (todo_of s) = size fs.
Proof.
  intros [Hreg Hopen Hhooks Hfresh Hnd Hwg Hjoin Hblk Hrel].
  assert (dom fs = list_to_set (w_name <$> workers s) ∪ dom (todo_of s)) as Hdom.
  { apply set_eq. intros name.
    rewrite elem_of_union, !elem_of_dom, elem_of_list_to_set, list_elem_of_fmap.
    split.
    - intros [h Hin]. apply Hhooks in Hin as [Hin|(i & pc & Hi)].
      + right. by eexists.
      + left. exists (mkWorker name h pc). split; [done|].
        apply list_elem_of_lookup. eauto.
    - intros [(w & -> & Hw)|[h Hin]].
      + apply list_elem_of_lookup in Hw as [i Hi].
        exists (w_func w). apply Hhooks. right. exists i, (w_pc w). by destruct w.
      + exists h. apply Hhooks. by left. }
  assert (list_to_set (w_name <$> workers s) ## dom (todo_of s)) as Hdisj.
  { intros name Hw Ht. apply elem_of_list_to_set, list_elem_of_fmap in Hw
      as (w & -> & Hw).
    apply list_elem_of_lookup in Hw as [i Hi].
    apply elem_of_dom in Ht as [h Ht]. rewrite (Hfresh _ _ Hi) in Ht. done. }
  rewrite <- (size_dom fs), Hdom, size_union by done.
  rewrite size_list_to_set, length_fmap, size_dom by done. done.
Qed.

Lemma one_goroutine_count fs nw s :
  round_inv fs nw s →
  length (workers s) + size (todo_of s) = size fs
  ∧ NoDup (w_name <$> workers s)
  ∧ (∀ i w, workers s !! i = Some w → fs !! w_name w = Some (w_func w))
  ∧ (orch s = O_Wait ∨ past_wait (orch s) = true →
     length (workers s) = size fs).
Proof.
  intros Hr.
  pose proof (workers_and_todo _ _ _ Hr) as Hsum.
  split; [done|]. split; [apply (ri_nodup _ _ _ Hr)|].
  split; [intros i w Hi; by eapply worker_registered|].
  intros Ho. unfold todo_of in Hsum.
  destruct (orch s); destruct Ho as [?|?]; try done;
    rewrite map_size_empty in Hsum; lia.
Qed.

(** X15. [gracefullAll] starts one goroutine per registered hook and never
    more: the goroutines started so far and the entries the loop has still
    to visit add up to the size of the registry, no two goroutines run the
    same name, each runs the callback registered under its name, and once
    the loop is over there are exactly as many goroutines as hooks. *)
Theorem one_goroutine_per_hook
    (with_listener : bool) (fs : gmap string Hook) (nwaiters : nat)
    (ls : list Label) (s : State) :
  exec ls (init with_listener fs nwaiters) = Some s →
  length (workers s) + size (todo_of s) = size fs
  ∧ NoDup (w_name <$> workers s)
  ∧ (∀ i w, workers s !! i = Some w → fs !! w_name w = Some (w_func w))
  ∧ (orch s = O_Wait ∨ past_wait (orch s) = true →
     length (workers s) = size fs).
Proof.
  intros H. destruct (reachable_inv _ _ _ _ _ H) as (Hr & _).
  by apply (one_goroutine_count fs nwaiters).
Qed.

Lemma one_goroutine_per_hook_witness :
  ∃ s, exec scenario.schedule (init true scenario.hooks 2) = Some s
       ∧ length (workers s) = 3.
Proof.
  eexists. split; [vm_compute; reflexivity|].
  edestruct (one_goroutine_per_hook true scenario.hooks 2 scenario.schedule)
    as (_ & _ & _ & Hlen); [vm_compute; reflexivity|].
  rewrite Hlen; [vm_compute; reflexivity|right; vm_compute; reflexivity].
Defined.

Lemma live_le_length (ws : list Worker) : live ws ≤ length ws.
Proof.
  unfold live. induction ws as [|w ws IH]; simpl; [done|].
  case_decide; lia.
Qed.

(** X16. The WaitGroup counter is never negative, so [wg.Done()] never
    panics: it always equals the number of hook goroutines that have not
    yet run their deferred [wg.Done()], and is at most the number of
    registered hooks. *)
Theorem waitgroup_counter_in_range
    (with_listener : bool) (fs : gmap string Hook) (nwaiters : nat)
    (ls : list Label) (s : State) :
  exec ls (init with_listener fs nwaiters) = Some s →
  wg s = Z.of_nat (live (workers s))
  ∧ (0 ≤ wg s ≤ Z.of_nat (size fs))%Z
  ∧ (past_wait (orch s) = true → wg s = 0%Z).
Proof.
  intros H. destruct (reachable_inv _ _ _ _ _ H) as (Hr & _).
  pose proof (workers_and_todo _ _ _ Hr) as Hsum.
  pose proof (live_le_length (workers s)) as Hle.
  pose proof (ri_wg _ _ _ Hr) as Hwg.
  split; [done|]. split; [lia|].
  intros Hpw. rewrite Hwg, (ri_joined _ _ _ Hr Hpw). done.
Qed.

Lemma waitgroup_counter_in_range_witness :
  ∃ s, exec scenario.stuck_schedule (init false scenario.stuck_hooks 1) = Some s
       ∧ wg s = 1%Z.
Proof.
  eexists. split; [vm_compute; reflexivity|].
  edestruct (waitgroup_counter_in_range false scenario.stuck_hooks 1
               scenario.stuck_schedule) as (Hwg & _);
    [vm_compute; reflexivity|].
  rewrite Hwg. vm_compute. reflexivity.
Defined.

Lemma logged_all_exit (ws : list Worker) :
  live ws = 0 → logged ws = length ws.
Proof.
  unfold live, logged. induction ws as [|w ws IH]; simpl; [done|].
  case_decide as Hw; [|lia]. intros Hz. rewrite Hw, IH by lia. done.
Qed.

Lemma hook_line_not_frame name err :
  hook_log_line name err ≠ start_line ∧ hook_log_line name err ≠ over_line.
Proof. destruct err; split; discriminate. Qed.

(** X17. When the completion signal is ready or received the log reads:
    "Shutting down in progress...", then exactly one line per registered
    hook, in the order in which the hooks finished, then "Shutdown is
    over."; the line of each hook is the error line when it failed and the
    success line otherwise. *)
Theorem log_of_finished_round
    (with_listener : bool) (fs : gmap string Hook) (nwaiters : nat)
    (ls : list Label) (s : State) :
  exec ls (init with_listener fs nwaiters) = Some s →
  done_ready s = true ∨ done_received s = true →
  ∃ lines,
    log s = start_line :: lines ++ [over_line]
    ∧ length lines = size fs
    ∧ ∀ name h, fs !! name = Some h →
        hook_log_line name (hook_result h) ∈ lines.
Proof.
  intros H Hready.
  destruct (reachable_inv _ _ _ _ _ H) as (Hr & Hl & _).
  pose proof (reachable_log_shape _ _ _ _ _ H) as Hshape.
  assert (orch s = O_Send ∨ orch s = O_Exit) as Ho.
  { destruct Hready as [Hrd|Hrc].
    - unfold done_ready in Hrd. rewrite (ri_open _ _ _ Hr) in Hrd.
      left. by apply bool_decide_eq_true in Hrd.
    - right. destruct (decide (orch s = O_Exit)) as [|Hne]; [done|].
      destruct (ri_blocked _ _ _ Hr Hne) as [Hws _].
      unfold done_received in Hrc. apply bool_decide_eq_true in Hrc.
      rewrite Hws in Hrc. by apply elem_of_replicate in Hrc as [? _]. }
  assert (past_wait (orch s) = true) as Hpw by (destruct Ho as [-> | ->]; done).
  pose proof (proj2 (proj2 (proj2 (one_goroutine_count _ _ _ Hr)))) as Hcount.
  unfold log_shape in Hshape.
  assert (∃ lines, log s = start_line :: lines ++ [over_line]
                   ∧ length lines = logged (workers s)) as (lines & Hlog & Hlen).
  { destruct Ho as [Ho|Ho]; by rewrite Ho in Hshape. }
  exists lines. split; [done|]. split.
  - rewrite Hlen, (logged_all_exit _ (ri_joined _ _ _ Hr Hpw)). apply Hcount. by right.
  - intros name h Hin.
    destruct (hooks_joined _ _ _ Hr Hpw _ _ Hin) as [j Hj].
    destruct (Hl _ _ Hj) as [Hmem _]. simpl in Hmem.
    destruct (hook_line_not_frame name (hook_result h)) as [Hs Ho'].
    rewrite Hlog in Hmem.
    apply elem_of_cons in Hmem as [?|Hmem]; [done|].
    apply elem_of_app in Hmem as [?|Hmem]; [done|].
    by apply list_elem_of_singleton in Hmem.
Qed.


Lemma log_of_finished_round_witness :
  ∃ s lines, exec scenario.schedule (init true scenario.hooks 2) = Some s
       ∧ log s = start_line :: lines ++ [over_line]
       ∧ length lines = 3.
Proof.
  eexists.
  edestruct (log_of_finished_round true scenario.hooks 2 scenario.schedule)
    as (lines & Hlog & Hlen & _);
    [vm_compute; reflexivity|right; vm_compute; reflexivity|].
  exists lines. split; [vm_compute; reflexivity|].
  split; [exact Hlog|]. rewrite Hlen. vm_compute. reflexivity.
Defined.

(** *** Signals *)

Lemma signal_buffer_step ls l s s' :
  step l s = Some s' →
  signals_received ls + length (sigchan s) ≤ notified_signals ls
  ∧ Forall (λ sig, notified sig = true) (sigchan s) →
  signals_received (ls ++ [l]) + length (sigchan s') ≤ notified_signals (ls ++ [l])
  ∧ Forall (λ sig, notified sig = true) (sigchan s').
Proof.
  intros H [Hle Hall]. unfold signals_received, notified_signals in *.
  rewrite !count_if_snoc.
  destruct l as [sig| | | | | | | | | | | | | | | | |].
  { (* a signal is buffered, or it is not *)
    unfold step in H.
    destruct (notify s && notified sig) eqn:E; [|discriminate].
    apply andb_prop in E as [_ E].
    destruct (bool_decide (length (sigchan s) < sigchan_cap)) eqn:Hc;
      simplify_eq; simpl; rewrite E.
    - rewrite length_app. simpl. split; [lia|].
      apply Forall_app. split; [done|]. by apply Forall_singleton.
    - split; [lia|done]. }
  all: step_inv H; simpl; try (split; [lia|done]).
  (* the listener takes the signal *)
  split; [lia|]. by apply Forall_cons in Hall as [_ ?].
Qed.

Lemma signal_buffer_inv wl fs nw ls s :
  exec ls (init wl fs nw) = Some s →
  signals_received ls + length (sigchan s) ≤ notified_signals ls
  ∧ Forall (λ sig, notified sig = true) (sigchan s).
Proof.
  revert s. induction ls as [|l ls IH] using rev_ind; intros s H.
  - simpl in H. simplify_eq. split; [done|constructor].
  - apply exec_snoc in H as (s1 & H1 & Hstep).
    eapply signal_buffer_step; eauto.
Qed.

(** X18. The channel [c] never holds more than one signal, and only
    SIGINT and SIGTERM ever enter it: while [c] is registered, a SIGINT or
    SIGTERM that arrives while one is buffered is dropped, and the listener
    takes no more signals than the process was sent. *)
Theorem signal_buffer_bounded
    (with_listener : bool) (fs : gmap string Hook) (nwaiters : nat)
    (ls : list Label) (s : State) :
  exec ls (init with_listener fs nwaiters) = Some s →
  length (sigchan s) ≤ 1
  ∧ Forall (λ sig, notified sig = true) (sigchan s)
  ∧ signals_received ls + length (sigchan s) ≤ notified_signals ls
  ∧ (notify s = true → length (sigchan s) = 1 →
     ∀ sig, notified sig = true → step (EnvSignal sig) s = Some s).
Proof.
  intros H.
  destruct (reachable_inv _ _ _ _ _ H) as (_ & _ & _ & Hli).
  destruct (signal_buffer_inv _ _ _ _ _ H) as [Hle Hall].
  pose proof (li_cap _ _ Hli) as Hcap. unfold sigchan_cap in Hcap.
  split; [done|]. split; [done|]. split; [done|].
  intros Hn Hfull sig Hsig. unfold step, sigchan_cap.
  rewrite Hn, Hsig, Hfull. cbn [andb].
  by rewrite bool_decide_eq_false_2 by lia.
Qed.

Lemma signal_buffer_bounded_witness :
  ∃ s, exec [EnvSignal SIGTERM] (init true scenario.hooks 2) = Some s
       ∧ sigchan s = [SIGTERM]
       ∧ step (EnvSignal SIGINT) s = Some s.
Proof.
  eexists. split; [vm_compute; reflexivity|].
  edestruct (signal_buffer_bounded true scenario.hooks 2 [EnvSignal SIGTERM])
    as (_ & _ & _ & Hdrop); [vm_compute; reflexivity|].
  split; [vm_compute; reflexivity|].
  apply (Hdrop eq_refl eq_refl SIGINT eq_refl).
Defined.

Lemma only_listener_step ls l s s' :
  listener_inv ls s →
  step l s = Some s' →
  (outside_cancels ls = 0 →
     (cancelled s = true → listener_cancels ls = 1) ∧ ctx_exits ls = 0) →
  outside_cancels (ls ++ [l]) = 0 →
  (cancelled s' = true → listener_cancels (ls ++ [l]) = 1)
  ∧ ctx_exits (ls ++ [l]) = 0.
Proof.
  intros Hli H Hinv Hnone.
  unfold outside_cancels, listener_cancels, ctx_exits in *.
  rewrite !count_if_snoc in *.
  pose proof (li_pending _ _ Hli) as Hpend.
  unfold listener_cancels in Hpend.
  destruct Hinv as [Hc He]; [lia|].
  destruct l; step_inv H; simpl in *;
    try (split; [intros Hcan; rewrite Hc; [lia|done]|lia]; fail);
    try lia.
  all: try (split; [intros _|]).
  all: try (specialize (Hpend ltac:(done)));
    try (specialize (Hc ltac:(done))); lia.
Qed.

Lemma only_listener_inv wl fs nw ls s :
  exec ls (init wl fs nw) = Some s →
  outside_cancels ls = 0 →
  (cancelled s = true → listener_cancels ls = 1) ∧ ctx_exits ls = 0.
Proof.
  revert s. induction ls as [|l ls IH] using rev_ind; intros s H.
  - simpl in H. simplify_eq. done.
  - apply exec_snoc in H as (s1 & H1 & Hstep).
    destruct (reachable_inv _ _ _ _ _ H1) as (_ & _ & _ & Hli).
    eapply only_listener_step; eauto.
Qed.

(** X19. Nobody but the listener holds the [cancel] function of the
    context that [New] creates.  In a run of an engine built by [New] in
    which no one else cancels, the listener never leaves its [select] by
    the [ctx.Done()] branch, and the shutdown round begins only after the
    process has been sent SIGINT or SIGTERM: if the context is cancelled
    or the round has begun, one such signal was taken from [c], the relay
    was stopped and the listener has finished. *)
Theorem only_a_signal_stops_the_engine
    (e : application.Engine) (nwaiters : nat) (ls : list Label) (s : State) :
  exec ls (after_New e nwaiters) = Some s →
  outside_cancels ls = 0 →
  ctx_exits ls = 0
  ∧ (cancelled s = true ∨ 0 < rounds ls →
     1 ≤ notified_signals ls
     ∧ signals_received ls = 1
     ∧ handler_stops ls = 1
     ∧ listener_cancels ls = 1
     ∧ notify s = false
     ∧ listener s = L_Exit).
Proof.
  unfold after_New. intros H H0.
  destruct (only_listener_inv _ _ _ _ _ H H0) as [Hc He].
  split; [done|]. intros Hbegun.
  destruct (reachable_inv _ _ _ _ _ H) as (_ & _ & (Hrounds & _) & Hli).
  assert (cancelled s = true) as Hcan.
  { destruct Hbegun as [?|Hr]; [done|].
    apply (begun_cancelled _ _ _ _ _ H). intros Ho.
    rewrite Hrounds, Ho in Hr. simpl in Hr. lia. }
  specialize (Hc Hcan).
  destruct Hli as [Hrel Hstp Hcap Hrecv Hstop Honce Hpend Hcanc].
  assert (listener s = L_Exit) as Hl.
  { destruct (decide (listener s = L_Exit)) as [|Hne]; [done|].
    specialize (Hpend Hne). lia. }
  rewrite Hl in Hrecv, Hstop.
  destruct (signal_buffer_inv _ _ _ _ _ H) as [Hle _].
  split; [lia|]. split; [lia|]. split; [lia|]. split; [done|].
  split; [apply Hstp; by right|done].
Qed.

Lemma only_a_signal_stops_the_engine_witness :
  ∃ s, exec [EnvSignal SIGINT; ListenerRecv; ListenerStop; ListenerCancel;
             OrchCtxDone; OrchLogStart]
            (after_New application.new_engine 1) = Some s
       ∧ signals_received
           [EnvSignal SIGINT; ListenerRecv; ListenerStop; ListenerCancel;
            OrchCtxDone; OrchLogStart] = 1
       ∧ listener s = L_Exit.
Proof.
  eexists. split; [vm_compute; reflexivity|].
  edestruct (only_a_signal_stops_the_engine application.new_engine 1
               [EnvSignal SIGINT; ListenerRecv; ListenerStop; ListenerCancel;
                OrchCtxDone; OrchLogStart])
    as (_ & Hsig); [vm_compute; reflexivity|vm_compute; reflexivity|].
  destruct Hsig as (_ & Hr & _ & _ & _ & Hl); [left; vm_compute; reflexivity|].
  split; [exact Hr|exact Hl].
Defined.


(** *** The logger's close function as a shutdown hook *)

(** X20. When [SetZapLogger] is the last option, the name "zaplogger" is
    still free and the logger constructor succeeds, [New] returns an
    engine with that logger, and in every run of the engine the close
    function of the logger has been called exactly once, has returned and
    has its outcome in the log by the time the completion signal is ready
    or received. *)
Theorem logger_closed_before_completion
    (f : string → string → string → bool →
         application.Logger * Hook * error)
    (before : list application.Option) (configured : application.Engine)
    (l : application.Logger) (close : Hook) :
  application.apply_options before application.new_engine
  = application.Returned configured →
  functions (application.gracefull configured) !! "zaplogger" = None →
  f (application.appName configured) (application.appVersion configured)
    (application.appEnv configured) (application.appDebug configured)
  = (l, close, None) →
  ∃ e, application.New (before ++ [application.SetZapLogger f])
       = application.Returned (Some e, None)
       ∧ application.Engine_Logger e = Some l
       ∧ ∀ nwaiters ls s,
           exec ls (after_New e nwaiters) = Some s →
           done_ready s = true ∨ done_received s = true →
           invocations "zaplogger" ls = 1
           ∧ (∃ i, workers s !! i = Some (mkWorker "zaplogger" close W_Exit))
           ∧ hook_log_line "zaplogger" (hook_result close) ∈ log s.
Proof.
  intros Hb Hfree Hf.
  assert (application.apply_options (before ++ [application.SetZapLogger f])
            application.new_engine
          = application.Returned
              (application.SetGracefull (application.SetLogger configured l)
                 (mkGracefull
                    (<["zaplogger" := close]>
                       (functions (application.gracefull configured)))
                    (done (application.gracefull configured))))) as Hrun.
  { rewrite OptionFacts.apply_options_app, Hb. simpl.
    unfold application.SetZapLogger, application.Name,
      application.Engine_Version, application.Engine_Env,
      application.Engine_Debug.
    rewrite Hf. simpl. unfold Register. simpl. by rewrite Hfree. }
  eexists. unfold application.New. rewrite Hrun. split; [reflexivity|].
  destruct (ApplicationFacts.apply_defaults_rest
              (application.SetGracefull (application.SetLogger configured l)
                 (mkGracefull
                    (<["zaplogger" := close]>
                       (functions (application.gracefull configured)))
                    (done (application.gracefull configured)))))
    as (_ & _ & Hg & Hl).
  split; [unfold application.Engine_Logger; by rewrite Hl|].
  intros nw ls s H Hready. unfold after_New in H. rewrite Hg in H. simpl in H.
  destruct (reachable_inv _ _ _ _ _ H) as (Hr & Hlog & _).
  pose proof (ready_past_wait _ _ _ Hr Hready) as Hpw.
  assert (<["zaplogger" := close]>
            (functions (application.gracefull configured)) !! "zaplogger"
          = Some close) as Hin by apply lookup_insert_eq.
  split; [by eapply invocations_joined|].
  destruct (hooks_joined _ _ _ Hr Hpw _ _ Hin) as [i Hi].
  split; [by exists i|]. by destruct (Hlog _ _ Hi) as [Hmem _].
Qed.

Lemma logger_closed_before_completion_witness :
  ∃ e, application.New
         ([application.AppName "svc"]
          ++ [application.SetZapLogger
                (λ n _ _ _, (application.mkLogger n, scenario.hook_b, None))])
       = application.Returned (Some e, None)
       ∧ application.Engine_Logger e = Some (application.mkLogger "svc").
Proof.
  edestruct (logger_closed_before_completion
               (λ n _ _ _, (application.mkLogger n, scenario.hook_b, None))
               [application.AppName "svc"]
               (application.mkEngine "svc" "" "" false application.Background
                  NewGracefullShutdown None)
               (application.mkLogger "svc") scenario.hook_b)
    as (e & HNew & Hl & _); [reflexivity|reflexivity|reflexivity|].
  exists e. split; [exact HNew|exact Hl].
Defined.

End ShutdownFacts.

(* ===================================================================== *)
(** ** Producers in turn and producers that race *)
(* ===================================================================== *)
Module SerialFacts.
Import producers.
Local Open Scope list_scope.
Local Open Scope nat_scope.

Lemma run_alone_state (s : State) (i : nat) (p : Producer) :
  threads s !! i = Some p →
  p_pc p = P_Call →
  run_alone i s
  = Some (mkState
            (lifecycle.functions
               (fst (lifecycle.Register
                       (lifecycle.mkGracefull (functions s) lifecycle.make_chan)
                       (p_name p) (p_func p))))
            (<[i := mkProducer (p_name p) (p_func p) (P_Ret None)]> (threads s))
            (snapshot s)).
Proof.
  intros Hi Hpc.
  assert (i < length (threads s)) as Hlen by (by eapply lookup_lt_Some).
  unfold run_alone, lifecycle.Register, step. rewrite Hi, Hpc.
  unfold set_pc; simpl.
  rewrite !list_lookup_insert_eq by done. simpl.
  destruct (functions s !! p_name p) as [h|] eqn:Hin; simpl.
  - by rewrite list_insert_insert_eq.
  - rewrite !list_lookup_insert_eq by (by rewrite length_insert). simpl.
    by rewrite !list_insert_insert_eq.
Qed.

Lemma run_in_turn_from fs (served pending : list (string * lifecycle.Hook)) snap :
  run_in_turn (seq (length served) (length pending))
    (mkState fs ((returned_nil <$> served) ++ (waiting <$> pending)) snap)
  = Some (mkState
            (lifecycle.functions
               (lifecycle.RegisterAll
                  (lifecycle.mkGracefull fs lifecycle.make_chan) pending))
            (returned_nil <$> (served ++ pending)) snap).
Proof.
  revert fs served. induction pending as [|[n h] rest IH]; intros fs served.
  - simpl. by rewrite !app_nil_r.
  - simpl seq. simpl run_in_turn.
    erewrite run_alone_state; cycle 1.
    { simpl. rewrite lookup_app_r by (by rewrite length_fmap).
      rewrite length_fmap, Nat.sub_diag. reflexivity. }
    { done. }
    csimpl.
    assert (<[length served := mkProducer n h (P_Ret None)]>
              ((returned_nil <$> served) ++ waiting (n, h) :: (waiting <$> rest))
            = (returned_nil <$> (served ++ [(n, h)])) ++ (waiting <$> rest)) as ->.
    { rewrite fmap_app. simpl. rewrite <- (length_fmap returned_nil served).
      rewrite insert_app_r_alt by done. rewrite Nat.sub_diag. simpl.
      by rewrite <- app_assoc. }
    specialize (IH (lifecycle.functions
                      (fst (lifecycle.Register
                              (lifecycle.mkGracefull fs lifecycle.make_chan) n h)))
                   (served ++ [(n, h)])).
    rewrite length_app in IH. simpl in IH.
    replace (length served + 1) with (S (length served)) in IH by lia.
    rewrite IH. rewrite <- app_assoc. simpl.
    pose proof (LifecycleFacts.Register_done
                  (lifecycle.mkGracefull fs lifecycle.make_chan) n h) as Hd.
    destruct (lifecycle.Register (lifecycle.mkGracefull fs lifecycle.make_chan) n h)
      as [[fs' d'] err]. simpl in *. by subst d'.
Qed.

(** X21. Producers that take turns, each running its whole [Register]
    call before the next one starts, leave the registry that the same
    sequence of sequential [Register] calls gives, and every one of them
    has returned nil. *)
Theorem producers_in_turn_register_all
    (fs : gmap string lifecycle.Hook) (calls : list (string * lifecycle.Hook)) :
  ∃ s, run_in_turn (seq 0 (length calls)) (init fs calls) = Some s
       ∧ functions s
         = lifecycle.functions
             (lifecycle.RegisterAll
                (lifecycle.mkGracefull fs lifecycle.make_chan) calls)
       ∧ threads s
         = (λ c, mkProducer (fst c) (snd c) (P_Ret None)) <$> calls
       ∧ snapshot s = None.
Proof.
  eexists. split; [exact (run_in_turn_from fs [] calls None)|].
  simpl. repeat split.
Qed.

End SerialFacts.
